(** * Two HLT modules of CMSSW, embedded and checked against their description

    - [Timing]: HLTrigger/JetMET/plugins/HLTCaloJetTimingProducer.cc
    - [DiJet]:  RecoTauTag/HLTProducers/src/HLTPFDiJetCorrCheckerWithDiTau.cc

    Numbers.  The C++ code computes in [float] and [double]; the properties
    studied here are statements of exact arithmetic, so every real quantity
    is a canonical rational ([Qc]): equality is Leibniz equality and every
    definition below evaluates.  Rounding is outside this model. *)

From Stdlib Require Import QArith Qcanon Qcabs.
From Stdlib Require Import NArith List Bool Arith Lia Permutation Sorted.
Import ListNotations.

Local Open Scope Qc_scope.

(** ** Comparisons of rationals as booleans *)

Definition Qcltb (x y : Qc) : bool :=
  match x ?= y with Lt => true | _ => false end.

Definition Qcleb (x y : Qc) : bool :=
  match x ?= y with Gt => false | _ => true end.

(** Integer and fraction literals. *)
Definition QcZ (z : Z) : Qc := Q2Qc (inject_Z z).
Definition Qcfrac (n : Z) (d : positive) : Qc := Q2Qc (n # d).

(** Closed equations, disequations and comparisons of rationals, by
    evaluation of the underlying fractions. *)
Ltac qc_eq := apply Qc_is_canon; vm_compute; reflexivity.
Ltac qc_neq :=
  let H := fresh in
  intro H; apply (f_equal this) in H; vm_compute in H; discriminate H.
Ltac qc_order :=
  vm_compute;
  first [reflexivity | let H := fresh in intro H; discriminate H].

(** Sum of a list of rationals. *)
Definition Qcsum (l : list Qc) : Qc := fold_right Qcplus 0 l.

(** ** HLTCaloJetTimingProducer *)

Module Timing.

(** The five quality flags the producer tests with [EcalRecHit::checkFlag]. *)
Inductive Flag : Type :=
| kSaturated
| kLeadingEdgeRecovered
| kPoorReco
| kWeird
| kDiWeird.

(** What the producer reads of an [EcalRecHit]. *)
Record EcalRecHit : Type := mkHit {
  detid : N;
  energy : Qc;
  time : Qc;
  timeError : Qc;
  checkFlag : Flag -> bool
}.

(** The configuration members of the class. *)
Record Config : Type := mkConfig {
  barrelJets : bool;
  endcapJets : bool;
  ecalCellEnergyThresh : Qc;
  ecalCellTimeThresh : Qc;
  ecalCellTimeErrorThresh : Qc;
  matchingRadius2 : Qc
}.

(** The geometry handle [_pG] and the angular helpers are not part of the
    file: they enter as an interface.  [sinTheta p] stands for
    [sin(p.theta())], [deltaR2 jet p] for [reco::deltaR2(jet, p)]. *)
Class Geometry (CaloJet : Type) : Type := {
  GlobalPoint : Type;
  getPosition : N -> GlobalPoint;
  deltaR2 : CaloJet -> GlobalPoint -> Qc;
  sinTheta : GlobalPoint -> Qc
}.

(** The three references [weightedTimeCell], [totalEmEnergyCell], [nCells]
    threaded through [jetTimeFromEcalCells]. *)
Record Acc : Type := mkAcc {
  weightedTimeCell : Qc;
  totalEmEnergyCell : Qc;
  nCells : N
}.

(** [nCells++] on an [unsigned int]. *)
Definition uint_incr (n : N) : N := ((n + 1) mod 2 ^ 32)%N.

Section Producer.

Context {CaloJet : Type} {G : Geometry CaloJet}.
Variable cfg : Config.

(** The chain of [continue] statements of the loop body (lines 87-99):
    [true] when the hit is skipped. *)
Definition skipped (jet : CaloJet) (ecalRH : EcalRecHit) : bool :=
  if checkFlag ecalRH kSaturated || checkFlag ecalRH kLeadingEdgeRecovered
     || checkFlag ecalRH kPoorReco || checkFlag ecalRH kWeird
     || checkFlag ecalRH kDiWeird
  then true
  else if Qcltb (energy ecalRH) (ecalCellEnergyThresh cfg) then true
  else if Qcleb (timeError ecalRH) 0
          || Qcltb (ecalCellTimeErrorThresh cfg) (timeError ecalRH)
  then true
  else if Qcltb (ecalCellTimeThresh cfg) (Qcabs (time ecalRH)) then true
  else
    let pos := getPosition (detid ecalRH) in
    if Qcltb (matchingRadius2 cfg) (deltaR2 jet pos) then true else false.

(** Lines 100-102: what an accepted hit adds. *)
Definition accumulate (a : Acc) (ecalRH : EcalRecHit) : Acc :=
  let pos := getPosition (detid ecalRH) in
  mkAcc (weightedTimeCell a + time ecalRH * energy ecalRH * sinTheta pos)
        (totalEmEnergyCell a + energy ecalRH * sinTheta pos)
        (uint_incr (nCells a)).

(** One iteration of the loop over the hits. *)
Definition loop_body (jet : CaloJet) (a : Acc) (ecalRH : EcalRecHit) : Acc :=
  if skipped jet ecalRH then a else accumulate a ecalRH.

(** The whole loop of lines 86-103. *)
Definition scan (jet : CaloJet) (ecalRecHits : list EcalRecHit) (a : Acc) : Acc :=
  fold_left (loop_body jet) ecalRecHits a.

(** Lines 104-106. *)
Definition normalise (a : Acc) : Acc :=
  if Qcltb 0 (totalEmEnergyCell a)
  then mkAcc (weightedTimeCell a / totalEmEnergyCell a)
             (totalEmEnergyCell a) (nCells a)
  else a.

Definition jetTimeFromEcalCells (jet : CaloJet) (ecalRecHits : list EcalRecHit)
    (a : Acc) : Acc :=
  normalise (scan jet ecalRecHits a).

(** Line 132: [weightedTimeCell *= totalEmEnergyCell]. *)
Definition rescale (a : Acc) : Acc :=
  mkAcc (weightedTimeCell a * totalEmEnergyCell a)
        (totalEmEnergyCell a) (nCells a).

(** Lines 137-139: the three values appended for one jet. *)
Definition emit (a : Acc) : Qc * Qc * N :=
  (if Qcltb 0 (totalEmEnergyCell a) then weightedTimeCell a else QcZ (-50),
   totalEmEnergyCell a,
   nCells a).

(** Body of the loop over the jets in [produce] (lines 126-139). *)
Definition perJet (jet : CaloJet) (ecalRecHitsEB ecalRecHitsEE : list EcalRecHit)
    : Qc * Qc * N :=
  let a0 := mkAcc 0 0 0%N in
  let a1 := if barrelJets cfg
            then jetTimeFromEcalCells jet ecalRecHitsEB a0 else a0 in
  let a2 := if endcapJets cfg
            then jetTimeFromEcalCells jet ecalRecHitsEE (rescale a1) else a1 in
  emit a2.

(** [produce]: the three per-jet vectors [jetTimings],
    [jetEcalEtForTiming], [jetCellsForTiming], in the order of the jets. *)
Definition produce (jets : list CaloJet)
    (ecalRecHitsEB ecalRecHitsEE : list EcalRecHit)
    : list Qc * list Qc * list N :=
  let r := map (fun jet => perJet jet ecalRecHitsEB ecalRecHitsEE) jets in
  (map (fun x => fst (fst x)) r, map (fun x => snd (fst x)) r, map snd r).

(** *** The description's side: the direct formula

    Definitions that follow the words of the description, to be compared
    with the code above. *)

(** "any disqualifying quality flag is set". *)
Definition flagged (ecalRH : EcalRecHit) : Prop :=
  checkFlag ecalRH kSaturated = true \/
  checkFlag ecalRH kLeadingEdgeRecovered = true \/
  checkFlag ecalRH kPoorReco = true \/
  checkFlag ecalRH kWeird = true \/
  checkFlag ecalRH kDiWeird = true.

(** "reject a cell if any disqualifying quality flag is set, or energy <
    energy threshold, or time-uncertainty <= 0 or > uncertainty threshold,
    or |time| > time threshold, or squared angular distance ... exceeds the
    matching-radius-squared threshold". *)
Definition rejected (jet : CaloJet) (ecalRH : EcalRecHit) : Prop :=
  flagged ecalRH \/
  energy ecalRH < ecalCellEnergyThresh cfg \/
  (timeError ecalRH <= 0 \/ ecalCellTimeErrorThresh cfg < timeError ecalRH) \/
  ecalCellTimeThresh cfg < Qcabs (time ecalRH) \/
  matchingRadius2 cfg < deltaR2 jet (getPosition (detid ecalRH)).

(** The five per-cell predicates, all of which a qualifying cell satisfies. *)
Definition qualifies (jet : CaloJet) (ecalRH : EcalRecHit) : bool :=
  negb (checkFlag ecalRH kSaturated || checkFlag ecalRH kLeadingEdgeRecovered
        || checkFlag ecalRH kPoorReco || checkFlag ecalRH kWeird
        || checkFlag ecalRH kDiWeird)
  && Qcleb (ecalCellEnergyThresh cfg) (energy ecalRH)
  && (Qcltb 0 (timeError ecalRH)
      && Qcleb (timeError ecalRH) (ecalCellTimeErrorThresh cfg))
  && Qcleb (Qcabs (time ecalRH)) (ecalCellTimeThresh cfg)
  && Qcleb (deltaR2 jet (getPosition (detid ecalRH))) (matchingRadius2 cfg).

Definition qualifying (jet : CaloJet) (hits : list EcalRecHit) : list EcalRecHit :=
  filter (qualifies jet) hits.

(** [energy * sin(theta)] and [time * energy * sin(theta)] of a cell. *)
Definition weight (ecalRH : EcalRecHit) : Qc :=
  energy ecalRH * sinTheta (getPosition (detid ecalRH)).

Definition timeWeight (ecalRH : EcalRecHit) : Qc :=
  time ecalRH * energy ecalRH * sinTheta (getPosition (detid ecalRH)).

(** Sum(time * energy * sin theta) / Sum(energy * sin theta) over the given
    cells. *)
Definition weightedMean (cells : list EcalRecHit) : Qc :=
  Qcsum (map timeWeight cells) / Qcsum (map weight cells).

(** The single-pass result over a list of qualifying cells: the weighted
    mean (one division), the energy sum and the number of cells, with the
    sentinel of the per-jet output when the energy sum is not positive.
    The count is an [unsigned int]. *)
Definition singlePass (cells : list EcalRecHit) : Qc * Qc * N :=
  (if Qcltb 0 (Qcsum (map weight cells))
   then weightedMean cells else QcZ (-50),
   Qcsum (map weight cells),
   (N.of_nat (length cells) mod 2 ^ 32)%N).

(** The hits the driver scans: those of the enabled regions, barrel
    first. *)
Definition enabledHits (ecalRecHitsEB ecalRecHitsEE : list EcalRecHit)
    : list EcalRecHit :=
  (if barrelJets cfg then ecalRecHitsEB else [])
  ++ (if endcapJets cfg then ecalRecHitsEE else []).

End Producer.

(** [fillDescriptions] (lines 162-174): the default value of each
    parameter. *)
Definition fillDescriptions : Config :=
  mkConfig false false (Qcfrac 1 2) (Qcfrac 25 2) (QcZ 100) (Qcfrac 16 100).

(** Projections of the per-jet triple. *)
Definition jetTime (r : Qc * Qc * N) : Qc := fst (fst r).
Definition jetEnergy (r : Qc * Qc * N) : Qc := snd (fst r).
Definition jetCells (r : Qc * Qc * N) : N := snd r.

(** *** A small detector for worked examples

    One jet; cell 1 is a barrel cell at eta = 0 (sin theta = 1), cell 2 an
    endcap cell with sin theta = 1/2; both lie within the matching cone, at
    squared distance 1/64 and 1/8 of the jet axis. *)
#[global] Instance toyGeometry : Geometry unit := {|
  GlobalPoint := N;
  getPosition := fun id => id;
  deltaR2 := fun _ p => if N.eqb p 1 then Qcfrac 1 64 else Qcfrac 1 8;
  sinTheta := fun p => if N.eqb p 1 then 1 else Qcfrac 1 2
|}.

Definition noFlag : Flag -> bool := fun _ => false.

(** The defaults of [fillDescriptions], with both regions switched on. *)
Definition defaultConfig : Config :=
  mkConfig true true (Qcfrac 1 2) (Qcfrac 25 2) (QcZ 100) (Qcfrac 16 100).

(** The same with an energy threshold of -1. *)
Definition lowThreshConfig : Config :=
  mkConfig true true (QcZ (-1)) (Qcfrac 25 2) (QcZ 100) (Qcfrac 16 100).

(** Barrel only and endcap only, default thresholds. *)
Definition barrelConfig : Config :=
  mkConfig true false (Qcfrac 1 2) (Qcfrac 25 2) (QcZ 100) (Qcfrac 16 100).
Definition endcapConfig : Config :=
  mkConfig false true (Qcfrac 1 2) (Qcfrac 25 2) (QcZ 100) (Qcfrac 16 100).

(** Barrel only with an energy threshold of 0, the other thresholds at
    their defaults. *)
Definition zeroThreshBarrelConfig : Config :=
  mkConfig true false 0 (Qcfrac 25 2) (QcZ 100) (Qcfrac 16 100).

(** Hits: [hitB e t] in the barrel cell, [hitE e t] in the endcap cell, with
    time uncertainty 1 and no flag raised. *)
Definition hitB (e t : Qc) : EcalRecHit := mkHit 1 e t 1 noFlag.
Definition hitE (e t : Qc) : EcalRecHit := mkHit 2 e t 1 noFlag.

(** An endcap-only configuration whose matching radius squared is the
    squared distance of the endcap cell, and a hit of that cell sitting on
    every threshold at once. *)
Definition boundaryConfig : Config :=
  mkConfig false true (Qcfrac 1 2) (Qcfrac 25 2) (QcZ 100) (Qcfrac 1 8).
Definition boundaryHit : EcalRecHit :=
  mkHit 2 (Qcfrac 1 2) (Qcfrac (-25) 2) (QcZ 100) noFlag.

End Timing.

(** ** HLTPFDiJetCorrCheckerWithDiTau *)

Module DiJet.

(** The configuration members [extraTauPtCut_], [mjjMin_]; [matchingR2_] is
    computed by the constructor from the parameter [dRmin]. *)
Record Config : Type := mkConfig {
  extraTauPtCut : Qc;
  mjjMin : Qc;
  dRmin : Qc
}.

(** [std::pow(dRmin, 2)]. *)
Definition matchingR2 (cfg : Config) : Qc := dRmin cfg * dRmin cfg.

(** What the filter asks of jets, taus and four-momenta.  The kinematics
    library is not part of the file and enters as an interface:
    [sumM a b] stands for [(a + b).M()], [deltaR2 a b] for
    [reco::deltaR2(a, b)]. *)
Class Kinematics : Type := {
  PFJet : Type;
  PFTau : Type;
  LorentzVector : Type;
  jetP4 : PFJet -> LorentzVector;
  tauP4 : PFTau -> LorentzVector;
  jetPt : PFJet -> Qc;
  tauPt : PFTau -> Qc;
  sumM : LorentzVector -> LorentzVector -> Qc;
  deltaR2 : LorentzVector -> LorentzVector -> Qc
}.

(** The indices [a, a+1, ..., b-1] visited by [for (i = a; i < b; i++)].
    The loop counters are [unsigned int]; collections are taken to hold
    fewer than 2^32 elements, so positions are natural numbers. *)
Definition range (a b : nat) : list nat := seq a (b - a).

(** [std::set<unsigned int>]: a strictly increasing list; [set_insert] is
    [insert], iteration visits the elements in increasing order. *)
Fixpoint set_insert (i : nat) (s : list nat) : list nat :=
  match s with
  | [] => [i]
  | x :: s' =>
      if i <? x then i :: s
      else if i =? x then s
      else x :: set_insert i s'
  end.

Section Filter.

Context {K : Kinematics}.
Variable cfg : Config.

(** Body of the loop over [iTau2] (lines 86-94), acting on [correctComb]. *)
Definition tau2_body (taus : list PFTau) (myPFJet1 myPFJet2 : PFJet)
    (iTau1 : nat) (correctComb : bool) (iTau2 : nat) : bool :=
  match nth_error taus iTau1, nth_error taus iTau2 with
  | Some tau1, Some tau2 =>
      if Qcltb (deltaR2 (tauP4 tau2) (jetP4 myPFJet1)) (matchingR2 cfg)
      then correctComb
      else if Qcltb (deltaR2 (tauP4 tau2) (jetP4 myPFJet2)) (matchingR2 cfg)
      then correctComb
      else if Qcltb (tauPt tau1) (extraTauPtCut cfg)
              && Qcltb (tauPt tau2) (extraTauPtCut cfg)
      then correctComb
      else true
  | _, _ => correctComb
  end.

(** Body of the loop over [iTau1] (lines 80-95). *)
Definition tau1_body (taus : list PFTau) (myPFJet1 myPFJet2 : PFJet)
    (correctComb : bool) (iTau1 : nat) : bool :=
  match nth_error taus iTau1 with
  | Some tau1 =>
      if Qcltb (deltaR2 (tauP4 tau1) (jetP4 myPFJet1)) (matchingR2 cfg)
      then correctComb
      else if Qcltb (deltaR2 (tauP4 tau1) (jetP4 myPFJet2)) (matchingR2 cfg)
      then correctComb
      else fold_left (tau2_body taus myPFJet1 myPFJet2 iTau1)
                     (range (iTau1 + 1) (length taus)) correctComb
  | None => correctComb
  end.

(** The value of [correctComb] at line 98 for a jet pair that passed the
    mass cut. *)
Definition tauLoops (taus : list PFTau) (myPFJet1 myPFJet2 : PFJet) : bool :=
  fold_left (tau1_body taus myPFJet1 myPFJet2) (range 0 (length taus)) false.

(** Does the pair [(iJet1, iJet2)] reach line 98 with [correctComb] set? *)
Definition correctComb (pfJets : list PFJet) (taus : list PFTau)
    (iJet1 iJet2 : nat) : bool :=
  match nth_error pfJets iJet1, nth_error pfJets iJet2 with
  | Some myPFJet1, Some myPFJet2 =>
      if Qcltb (sumM (jetP4 myPFJet1) (jetP4 myPFJet2)) (mjjMin cfg)
      then false
      else tauLoops taus myPFJet1 myPFJet2
  | _, _ => false
  end.

(** Body of the loop over [iJet2] (lines 72-101), acting on [indices]. *)
Definition jet2_body (pfJets : list PFJet) (taus : list PFTau) (iJet1 : nat)
    (indices : list nat) (iJet2 : nat) : list nat :=
  if correctComb pfJets taus iJet1 iJet2
  then set_insert iJet2 (set_insert iJet1 indices)
  else indices.

(** Body of the loop over [iJet1] (lines 70-103). *)
Definition jet1_body (pfJets : list PFJet) (taus : list PFTau)
    (indices : list nat) (iJet1 : nat) : list nat :=
  fold_left (jet2_body pfJets taus iJet1)
            (range (iJet1 + 1) (length pfJets)) indices.

(** The set [indices] at the end of [produce]. *)
Definition indices (pfJets : list PFJet) (taus : list PFTau) : list nat :=
  if (1 <? length pfJets)%nat && (1 <? length taus)%nat
  then fold_left (jet1_body pfJets taus) (range 0 (length pfJets)) []
  else [].

(** Lines 105-106: the jets of the selected indices, in increasing index
    order ([indices] never holds a position outside [pfJets]). *)
Definition cleanedPFJets (pfJets : list PFJet) (taus : list PFTau) : list PFJet :=
  flat_map (fun i => match nth_error pfJets i with
                     | Some jet => jet :: nil
                     | None => nil
                     end)
           (indices pfJets taus).

(** Modelled from the spec: the comparator [GreaterByPt] of
    CommonTools/Utils/interface/PtComparator.h, which is not among the
    sources.  The description has the result sorted "descending by
    transverse momentum using a standard jet-pt comparator": the comparator
    holds when the first jet has the strictly greater pt. *)
Definition GreaterByPt (t1 t2 : PFJet) : bool := Qcltb (jetPt t2) (jetPt t1).

(** Modelled from the spec: [std::sort] with a comparator.  Its contract is
    a permutation of the input ordered by the comparator; an insertion sort
    stands for it (the order among jets of equal pt, which [std::sort]
    leaves open, is the one this sort happens to give). *)
Fixpoint sort_insert (comp : PFJet -> PFJet -> bool) (x : PFJet)
    (l : list PFJet) : list PFJet :=
  match l with
  | [] => [x]
  | y :: l' => if comp x y then x :: l else y :: sort_insert comp x l'
  end.

Definition std_sort (comp : PFJet -> PFJet -> bool) (l : list PFJet) : list PFJet :=
  fold_right (sort_insert comp) [] l.

(** [produce]: the jet collection put into the event. *)
Definition produce (pfJets : list PFJet) (taus : list PFTau) : list PFJet :=
  std_sort GreaterByPt (cleanedPFJets pfJets taus).

(** *** The description's side *)

(** A tau at squared angular distance at least [dRmin^2] from both jets. *)
Definition awayFromJets (j1 j2 : PFJet) (t : PFTau) : Prop :=
  matchingR2 cfg <= deltaR2 (tauP4 t) (jetP4 j1) /\
  matchingR2 cfg <= deltaR2 (tauP4 t) (jetP4 j2).

(** A tau pair, [t1] before [t2] in the sequence, each tau away from both
    jets. *)
Definition tauPairAwayFromJets (taus : list PFTau) (j1 j2 : PFJet) : Prop :=
  exists k1 k2 t1 t2,
    (k1 < k2)%nat /\ nth_error taus k1 = Some t1 /\ nth_error taus k2 = Some t2 /\
    awayFromJets j1 j2 t1 /\ awayFromJets j1 j2 t2.

(** The same, the two taus away from each other as well. *)
Definition isolatedTauPair (taus : list PFTau) (j1 j2 : PFJet) : Prop :=
  exists k1 k2 t1 t2,
    (k1 < k2)%nat /\ nth_error taus k1 = Some t1 /\ nth_error taus k2 = Some t2 /\
    awayFromJets j1 j2 t1 /\ awayFromJets j1 j2 t2 /\
    matchingR2 cfg <= deltaR2 (tauP4 t1) (tauP4 t2).

(** A qualifying tau pair: away from both jets, and not both taus below the
    leading-pt cut. *)
Definition qualifyingTauPair (taus : list PFTau) (j1 j2 : PFJet) : Prop :=
  exists k1 k2 t1 t2,
    (k1 < k2)%nat /\ nth_error taus k1 = Some t1 /\ nth_error taus k2 = Some t2 /\
    awayFromJets j1 j2 t1 /\ awayFromJets j1 j2 t2 /\
    ~ (tauPt t1 < extraTauPtCut cfg /\ tauPt t2 < extraTauPtCut cfg).

(** A qualifying jet pair [(a, b)], [a] before [b]: invariant mass at least
    [mjjMin] and some qualifying tau pair. *)
Definition qualifyingJetPair (pfJets : list PFJet) (taus : list PFTau)
    (a b : nat) : Prop :=
  (a < b)%nat /\
  exists j1 j2,
    nth_error pfJets a = Some j1 /\ nth_error pfJets b = Some j2 /\
    mjjMin cfg <= sumM (jetP4 j1) (jetP4 j2) /\
    qualifyingTauPair taus j1 j2.

(** Ordered by transverse momentum, smallest first / largest first. *)
Definition ascendingPt (l : list PFJet) : Prop :=
  StronglySorted (fun a b => jetPt a <= jetPt b) l.

Definition descendingPt (l : list PFJet) : Prop :=
  StronglySorted (fun a b => jetPt b <= jetPt a) l.

End Filter.

(** *** A small event for worked examples

    Particles carry a label, pt, eta and phi.  [deltaR2] is
    [deta^2 + dphi^2] (all azimuths below lie in [0, 3], so no wrap of
    [dphi]); the invariant masses of the jet pairs are those of the sample
    scenario of the description: 600, 400 and 900 for the pairs (1,2),
    (1,3) and (2,3). *)
Record Particle : Type := mkParticle {
  p_id : nat;
  p_pt : Qc;
  p_eta : Qc;
  p_phi : Qc
}.

Definition toyMass (a b : Particle) : Qc :=
  match p_id a, p_id b with
  | 1%nat, 2%nat | 2%nat, 1%nat => QcZ 600
  | 1%nat, 3%nat | 3%nat, 1%nat => QcZ 400
  | 2%nat, 3%nat | 3%nat, 2%nat => QcZ 900
  | _, _ => 0
  end.

Definition toyDeltaR2 (a b : Particle) : Qc :=
  (p_eta a - p_eta b) * (p_eta a - p_eta b)
  + (p_phi a - p_phi b) * (p_phi a - p_phi b).

#[global] Instance toyKinematics : Kinematics := {|
  PFJet := Particle;
  PFTau := Particle;
  LorentzVector := Particle;
  jetP4 := fun j => j;
  tauP4 := fun t => t;
  jetPt := p_pt;
  tauPt := p_pt;
  sumM := toyMass;
  deltaR2 := toyDeltaR2
|}.

Definition jetA : Particle := mkParticle 1 (QcZ 120) (QcZ 2) 0.
Definition jetB : Particle := mkParticle 2 (QcZ 80) (QcZ (-2)) (QcZ 3).
Definition jetC : Particle := mkParticle 3 (QcZ 40) (QcZ 3) (Qcfrac 3 2).
Definition tau50 : Particle := mkParticle 11 (QcZ 50) 0 1.
Definition tau30 : Particle := mkParticle 12 (QcZ 30) 0 (QcZ 2).
(** A second tau candidate almost on top of [tau50]. *)
Definition tau30near : Particle := mkParticle 13 (QcZ 30) 0 (Qcfrac 6 5).

(** The defaults of the sample scenario: extraTauPtCut 45, mjjMin 500,
    dRmin 0.5. *)
Definition sampleConfig : Config := mkConfig (QcZ 45) (QcZ 500) (Qcfrac 1 2).

End DiJet.

(** * Proofs *)

(** ** Rationals *)

Lemma Qcltb_lt (x y : Qc) : Qcltb x y = true <-> x < y.
Proof.
  unfold Qcltb, Qclt, Qccompare. rewrite Qlt_alt.
  destruct (this x ?= this y)%Q; split; congruence.
Qed.

Lemma Qcleb_le (x y : Qc) : Qcleb x y = true <-> x <= y.
Proof.
  unfold Qcleb, Qcle, Qccompare. rewrite Qle_alt.
  destruct (this x ?= this y)%Q; split; congruence.
Qed.

Lemma Qcltb_ge (x y : Qc) : Qcltb x y = false <-> y <= x.
Proof.
  split; intro H.
  - apply Qcnot_lt_le. intro L. apply Qcltb_lt in L. congruence.
  - destruct (Qcltb x y) eqn:E; trivial.
    apply Qcltb_lt in E. exfalso. exact (Qcle_not_lt _ _ H E).
Qed.

Lemma Qcleb_gt (x y : Qc) : Qcleb x y = false <-> y < x.
Proof.
  split; intro H.
  - apply Qcnot_le_lt. intro L. apply Qcleb_le in L. congruence.
  - destruct (Qcleb x y) eqn:E; trivial.
    apply Qcleb_le in E. exfalso. exact (Qcle_not_lt _ _ E H).
Qed.

Lemma Qcltb_negb_leb (x y : Qc) : Qcltb x y = negb (Qcleb y x).
Proof.
  destruct (Qcleb y x) eqn:E; simpl.
  - apply Qcltb_ge. now apply Qcleb_le.
  - apply Qcltb_lt. now apply Qcleb_gt.
Qed.

Lemma Qcleb_negb_ltb (x y : Qc) : Qcleb x y = negb (Qcltb y x).
Proof. rewrite Qcltb_negb_leb. now rewrite negb_involutive. Qed.

Lemma Qcmult_nonneg (x y : Qc) : 0 <= x -> 0 <= y -> 0 <= x * y.
Proof.
  intros Hx Hy. rewrite <- (Qcmult_0_l y). now apply Qcmult_le_compat_r.
Qed.

Lemma Qcmult_pos (x y : Qc) : 0 < x -> 0 < y -> 0 < x * y.
Proof.
  intros Hx Hy. rewrite <- (Qcmult_0_l y). now apply Qcmult_lt_compat_r.
Qed.

Lemma Qcsum_app (l1 l2 : list Qc) : Qcsum (l1 ++ l2) = Qcsum l1 + Qcsum l2.
Proof.
  induction l1 as [|x l1 IH]; simpl.
  - now rewrite Qcplus_0_l.
  - rewrite IH. apply Qcplus_assoc.
Qed.

Lemma Qcsum_perm (l1 l2 : list Qc) : Permutation l1 l2 -> Qcsum l1 = Qcsum l2.
Proof.
  induction 1 as [|x l l' _ IH|x y l|l l' l'' _ IH1 _ IH2]; simpl.
  - reflexivity.
  - now rewrite IH.
  - ring.
  - congruence.
Qed.

Lemma Qcsum_nonneg (l : list Qc) : Forall (fun x => 0 <= x) l -> 0 <= Qcsum l.
Proof.
  induction 1 as [|x l Hx _ IH]; simpl.
  - apply Qcle_refl.
  - rewrite <- (Qcplus_0_l 0). now apply Qcplus_le_compat.
Qed.

(** A sum of non-negative terms vanishes only when every term does. *)
Lemma Qcsum_zero_all (l : list Qc) :
  Forall (fun x => 0 <= x) l -> Qcsum l = 0 -> Forall (fun x => x = 0) l.
Proof.
  induction 1 as [|x l Hx Hl IH]; simpl; intro S0.
  - constructor.
  - pose proof (Qcsum_nonneg l Hl) as Hs.
    assert (Hx0 : x = 0).
    { apply Qcle_antisym; trivial.
      rewrite <- S0. rewrite <- (Qcplus_0_r x) at 1.
      now apply Qcplus_le_compat; [apply Qcle_refl|]. }
    constructor; trivial. apply IH.
    rewrite Hx0, Qcplus_0_l in S0. exact S0.
Qed.

Lemma Qcsum_pos (l : list Qc) :
  l <> [] -> Forall (fun x => 0 < x) l -> 0 < Qcsum l.
Proof.
  intros Hne Hl. destruct l as [|x l]; [congruence|].
  inversion Hl as [|? ? Hx Hl']; subst. simpl.
  apply Qclt_le_trans with (x + 0).
  - now rewrite Qcplus_0_r.
  - apply Qcplus_le_compat; [apply Qcle_refl|].
    apply Qcsum_nonneg. eapply Forall_impl; [|exact Hl'].
    intros a Ha. now apply Qclt_le_weak.
Qed.

(** ** The timing producer *)

Section TimingProofs.

Import Timing.
Context {CaloJet : Type} {G : Geometry CaloJet}.
Variable cfg : Config.

Local Notation "'acc0'" := (mkAcc 0 0 0%N).

(** The chain of [continue]s skips exactly the cells that fail one of the
    five predicates. *)
Lemma skipped_qualifies (jet : CaloJet) (h : EcalRecHit) :
  skipped cfg jet h = negb (qualifies cfg jet h).
Proof.
  unfold skipped, qualifies.
  rewrite !Qcleb_negb_ltb.
  destruct (checkFlag h kSaturated || checkFlag h kLeadingEdgeRecovered
            || checkFlag h kPoorReco || checkFlag h kWeird
            || checkFlag h kDiWeird); simpl; trivial.
  destruct (Qcltb (energy h) (ecalCellEnergyThresh cfg)); simpl; trivial.
  destruct (Qcltb 0 (timeError h)); simpl; trivial.
  destruct (Qcltb (ecalCellTimeErrorThresh cfg) (timeError h)); simpl; trivial.
  destruct (Qcltb (ecalCellTimeThresh cfg) (Qcabs (time h))); simpl; trivial.
  destruct (Qcltb (matchingRadius2 cfg)
              (deltaR2 jet (getPosition (detid h)))); reflexivity.
Qed.

Lemma timeWeight_weight (h : EcalRecHit) : timeWeight h = time h * weight h.
Proof. unfold timeWeight, weight. ring. Qed.

Lemma uint_incr_bound (n : N) : (uint_incr n < 2 ^ 32)%N.
Proof. unfold uint_incr. apply N.mod_lt. discriminate. Qed.

Lemma uint_incr_add (n : N) (k : nat) :
  ((uint_incr n + N.of_nat k) mod 2 ^ 32 = (n + N.of_nat (S k)) mod 2 ^ 32)%N.
Proof.
  unfold uint_incr.
  rewrite N.Div0.add_mod_idemp_l. f_equal. lia.
Qed.

(** The loop in closed form: the accumulators grow by the sums over the
    qualifying cells, the counter by their number. *)
Lemma scan_closed (jet : CaloJet) (hits : list EcalRecHit) (a : Acc) :
  (nCells a < 2 ^ 32)%N ->
  scan cfg jet hits a =
  mkAcc (weightedTimeCell a + Qcsum (map timeWeight (qualifying cfg jet hits)))
        (totalEmEnergyCell a + Qcsum (map weight (qualifying cfg jet hits)))
        ((nCells a + N.of_nat (length (qualifying cfg jet hits))) mod 2 ^ 32)%N.
Proof.
  revert a. induction hits as [|h hits IH]; intros a Ha; simpl.
  - destruct a as [w e n]; simpl in *. f_equal.
    + now rewrite Qcplus_0_r.
    + now rewrite Qcplus_0_r.
    + rewrite N.add_0_r. symmetry. now apply N.mod_small.
  - unfold loop_body. rewrite skipped_qualifies.
    destruct (qualifies cfg jet h) eqn:Q; simpl.
    + rewrite IH by apply uint_incr_bound.
      unfold accumulate; simpl. f_equal.
      * fold (timeWeight h). ring.
      * fold (weight h). ring.
      * apply uint_incr_add.
    + now apply IH.
Qed.

Lemma scan_app (jet : CaloJet) (l1 l2 : list EcalRecHit) (a : Acc) :
  scan cfg jet (l1 ++ l2) a = scan cfg jet l2 (scan cfg jet l1 a).
Proof. unfold scan. apply fold_left_app. Qed.

Lemma qualifying_app (jet : CaloJet) (l1 l2 : list EcalRecHit) :
  qualifying cfg jet (l1 ++ l2) = qualifying cfg jet l1 ++ qualifying cfg jet l2.
Proof. unfold qualifying. apply filter_app. Qed.

Lemma qualifying_perm (jet : CaloJet) (l1 l2 : list EcalRecHit) :
  Permutation l1 l2 ->
  Permutation (qualifying cfg jet l1) (qualifying cfg jet l2).
Proof.
  unfold qualifying.
  induction 1 as [|x l l' _ IH|x y l|l l' l'' _ IH1 _ IH2]; simpl.
  - constructor.
  - destruct (qualifies cfg jet x); auto.
  - destruct (qualifies cfg jet x), (qualifies cfg jet y);
      auto using perm_swap.
  - eapply Permutation_trans; eauto.
Qed.

(** The loop does not depend on the order of the hits. *)
Lemma scan_perm (jet : CaloJet) (l1 l2 : list EcalRecHit) (a : Acc) :
  (nCells a < 2 ^ 32)%N -> Permutation l1 l2 ->
  scan cfg jet l1 a = scan cfg jet l2 a.
Proof.
  intros Ha P. rewrite !scan_closed by exact Ha.
  pose proof (qualifying_perm jet _ _ P) as PQ.
  rewrite (Qcsum_perm _ _ (Permutation_map timeWeight PQ)).
  rewrite (Qcsum_perm _ _ (Permutation_map weight PQ)).
  now rewrite (Permutation_length PQ).
Qed.

Lemma emit_normalise (a : Acc) :
  emit (normalise a) =
  (if Qcltb 0 (totalEmEnergyCell a)
   then weightedTimeCell a / totalEmEnergyCell a else QcZ (-50),
   totalEmEnergyCell a, nCells a).
Proof.
  unfold emit, normalise.
  destruct (Qcltb 0 (totalEmEnergyCell a)) eqn:E; simpl; now rewrite E.
Qed.

(** One call from fresh accumulators, then the emission of lines 137-139,
    is the single pass of the description over the qualifying cells. *)
Lemma single_scan_direct (jet : CaloJet) (hits : list EcalRecHit) :
  emit (jetTimeFromEcalCells cfg jet hits acc0) =
  singlePass (qualifying cfg jet hits).
Proof.
  unfold jetTimeFromEcalCells. rewrite emit_normalise.
  rewrite scan_closed by reflexivity. simpl.
  rewrite !Qcplus_0_l. reflexivity.
Qed.

(** The rescaling of line 132 undoes the division of line 105 when that
    division took place, or when there was nothing to divide. *)
Lemma rescale_normalise (a : Acc) :
  0 < totalEmEnergyCell a \/
  (totalEmEnergyCell a = 0 /\ weightedTimeCell a = 0) ->
  rescale (normalise a) = a.
Proof.
  intros H. destruct a as [w e n]; simpl in *.
  unfold normalise, rescale; simpl.
  destruct (Qcltb 0 e) eqn:E; simpl.
  - apply Qcltb_lt in E.
    assert (Hne : e <> 0).
    { intro Z. rewrite Z in E. exact (Qclt_not_eq _ _ E eq_refl). }
    f_equal. now field.
  - destruct H as [H|[H1 H2]].
    + apply Qcltb_lt in H. congruence.
    + subst. f_equal; ring.
Qed.

Lemma rescale_acc0 : rescale acc0 = acc0.
Proof. unfold rescale; simpl. f_equal; ring. Qed.

(** With weights that are never negative, a barrel scan ends in a state
    the rescaling restores. *)
Lemma barrel_state_restorable (jet : CaloJet) (eb : list EcalRecHit) :
  (forall h, In h eb -> qualifies cfg jet h = true -> 0 <= weight h) ->
  let a := scan cfg jet eb acc0 in
  0 < totalEmEnergyCell a \/
  (totalEmEnergyCell a = 0 /\ weightedTimeCell a = 0).
Proof.
  intros Hw a. subst a. rewrite scan_closed by reflexivity. simpl.
  rewrite !Qcplus_0_l.
  assert (Hq : Forall (fun x => 0 <= x) (map weight (qualifying cfg jet eb))).
  { apply Forall_forall. intros x Hx. apply in_map_iff in Hx.
    destruct Hx as [h [<- Hh]]. unfold qualifying in Hh.
    apply filter_In in Hh. destruct Hh. now apply Hw. }
  destruct (Qcltb 0 (Qcsum (map weight (qualifying cfg jet eb)))) eqn:E.
  - left. now apply Qcltb_lt.
  - right. apply Qcltb_ge in E.
    assert (Z : Qcsum (map weight (qualifying cfg jet eb)) = 0).
    { apply Qcle_antisym; trivial. now apply Qcsum_nonneg. }
    split; trivial.
    pose proof (Qcsum_zero_all _ Hq Z) as All0.
    clear - All0. induction (qualifying cfg jet eb) as [|h l IH]; simpl.
    + reflexivity.
    + inversion All0 as [|? ? H0 Hl]; subst.
      rewrite (IH Hl), timeWeight_weight, H0. ring.
Qed.

Lemma jetTimeFromEcalCells_none (jet : CaloJet) (hits : list EcalRecHit) :
  qualifying cfg jet hits = [] ->
  jetTimeFromEcalCells cfg jet hits acc0 = acc0.
Proof.
  intros Q. unfold jetTimeFromEcalCells.
  rewrite scan_closed by reflexivity. rewrite Q. simpl.
  unfold normalise; simpl. f_equal; ring.
Qed.

Lemma qualifying_none (jet : CaloJet) (hits : list EcalRecHit) :
  (forall h, In h hits -> qualifies cfg jet h = false) ->
  qualifying cfg jet hits = [].
Proof.
  intros H. unfold qualifying.
  induction hits as [|h hits IH]; simpl; trivial.
  rewrite (H h) by now left. apply IH. intros x Hx. apply H. now right.
Qed.

Lemma normalise_energy_cells (a : Acc) :
  totalEmEnergyCell (normalise a) = totalEmEnergyCell a /\
  nCells (normalise a) = nCells a.
Proof. unfold normalise. now destruct (Qcltb 0 (totalEmEnergyCell a)). Qed.

(** The number of cells counted for a jet, whatever the regions enabled. *)
Lemma perJet_cells (jet : CaloJet) (eb ee : list EcalRecHit) :
  jetCells (perJet cfg jet eb ee) =
  (N.of_nat (length (qualifying cfg jet (if barrelJets cfg then eb else []))
             + length (qualifying cfg jet (if endcapJets cfg then ee else [])))
   mod 2 ^ 32)%N.
Proof.
  unfold perJet, jetCells, emit; simpl.
  destruct (barrelJets cfg), (endcapJets cfg); simpl; trivial.
  - unfold jetTimeFromEcalCells.
    destruct (normalise_energy_cells
                (scan cfg jet ee (rescale (normalise (scan cfg jet eb acc0)))))
      as [_ ->].
    rewrite scan_closed; simpl.
    + destruct (normalise_energy_cells (scan cfg jet eb acc0)) as [_ ->].
      rewrite scan_closed by reflexivity. simpl.
      rewrite N.Div0.add_mod_idemp_l. f_equal. lia.
    + destruct (normalise_energy_cells (scan cfg jet eb acc0)) as [_ ->].
      rewrite scan_closed by reflexivity. simpl.
      apply N.mod_lt. discriminate.
  - unfold jetTimeFromEcalCells.
    destruct (normalise_energy_cells (scan cfg jet eb acc0)) as [_ ->].
    rewrite scan_closed by reflexivity. simpl. f_equal. lia.
  - rewrite rescale_acc0. unfold jetTimeFromEcalCells.
    destruct (normalise_energy_cells (scan cfg jet ee acc0)) as [_ ->].
    rewrite scan_closed by reflexivity. reflexivity.
Qed.

Lemma perJet_none (jet : CaloJet) (eb ee : list EcalRecHit) :
  (barrelJets cfg = true -> qualifying cfg jet eb = []) ->
  (endcapJets cfg = true -> qualifying cfg jet ee = []) ->
  perJet cfg jet eb ee = (QcZ (-50), 0, 0%N).
Proof.
  intros Hb He. unfold perJet.
  destruct (barrelJets cfg), (endcapJets cfg);
    rewrite ?jetTimeFromEcalCells_none, ?rescale_acc0,
            ?jetTimeFromEcalCells_none by auto;
    reflexivity.
Qed.

Lemma flagged_orb (h : EcalRecHit) :
  flagged h <->
  checkFlag h kSaturated || checkFlag h kLeadingEdgeRecovered
  || checkFlag h kPoorReco || checkFlag h kWeird || checkFlag h kDiWeird = true.
Proof.
  unfold flagged.
  destruct (checkFlag h kSaturated), (checkFlag h kLeadingEdgeRecovered),
    (checkFlag h kPoorReco), (checkFlag h kWeird), (checkFlag h kDiWeird);
    simpl; intuition congruence.
Qed.

(** The chain of [continue]s of the code is the rejection rule of the
    description. *)
Lemma rejected_skipped (jet : CaloJet) (h : EcalRecHit) :
  rejected cfg jet h <-> skipped cfg jet h = true.
Proof.
  unfold rejected, skipped.
  rewrite flagged_orb, <- !Qcltb_lt, <- Qcleb_le.
  destruct (checkFlag h kSaturated || checkFlag h kLeadingEdgeRecovered
            || checkFlag h kPoorReco || checkFlag h kWeird
            || checkFlag h kDiWeird);
    [intuition congruence|].
  destruct (Qcltb (energy h) (ecalCellEnergyThresh cfg));
    [intuition congruence|].
  destruct (Qcleb (timeError h) 0); [simpl; intuition congruence|].
  destruct (Qcltb (ecalCellTimeErrorThresh cfg) (timeError h));
    [simpl; intuition congruence|].
  destruct (Qcltb (ecalCellTimeThresh cfg) (Qcabs (time h)));
    [simpl; intuition congruence|].
  destruct (Qcltb (matchingRadius2 cfg) (deltaR2 jet (getPosition (detid h))));
    simpl; intuition congruence.
Qed.

Lemma uint_incr_neq (n : N) : uint_incr n <> n.
Proof.
  unfold uint_incr. intro H.
  assert (M : (2 ^ 32 = 4294967296)%N) by reflexivity.
  destruct (N.lt_ge_cases (n + 1) (2 ^ 32)) as [L|L].
  - rewrite N.mod_small in H by exact L. lia.
  - assert (B : ((n + 1) mod 2 ^ 32 < 2 ^ 32)%N)
      by (apply N.mod_lt; discriminate).
    rewrite H in B.
    assert (E : (n + 1 = 2 ^ 32)%N) by lia.
    rewrite E, N.Div0.mod_same in H. lia.
Qed.

Lemma accumulate_neq (a : Acc) (h : EcalRecHit) : accumulate a h <> a.
Proof.
  intro H. apply (f_equal nCells) in H. simpl in H.
  exact (uint_incr_neq _ H).
Qed.

(** The two sums after a scan, whatever the counter holds. *)
Lemma scan_sums (jet : CaloJet) (hits : list EcalRecHit) (a : Acc) :
  weightedTimeCell (scan cfg jet hits a)
  = weightedTimeCell a + Qcsum (map timeWeight (qualifying cfg jet hits)) /\
  totalEmEnergyCell (scan cfg jet hits a)
  = totalEmEnergyCell a + Qcsum (map weight (qualifying cfg jet hits)).
Proof.
  revert a. induction hits as [|h hits IH]; intros a.
  - simpl. now rewrite !Qcplus_0_r.
  - change (scan cfg jet (h :: hits) a)
      with (scan cfg jet hits (loop_body cfg jet a h)).
    destruct (IH (loop_body cfg jet a h)) as [-> ->].
    unfold loop_body, qualifying. rewrite skipped_qualifies. simpl filter.
    destruct (qualifies cfg jet h); simpl.
    + fold (timeWeight h). fold (weight h). split; ring.
    + split; reflexivity.
Qed.

(** C4. For every jet and every cell of the scanned collection, the cell
    contributes to the accumulators if and only if it is not rejected,
    rejection being: a disqualifying flag is set, or energy < threshold, or
    time uncertainty <= 0 or > threshold, or |time| > threshold, or squared
    angular distance > matching radius squared; so a cell is accepted
    exactly when no flag is set, energy >= threshold, 0 < uncertainty <=
    threshold, |time| <= threshold and squared distance <= matching radius
    squared, equality included.  The scan of no hit returns the
    accumulators as given; the scan up to and including a rejected cell
    returns what the scan of the cells before it returns; the scan up to
    and including an accepted cell returns that with the cell's
    time * energy * sin(theta) and energy * sin(theta) added and the count
    advanced by one; the cells after it are scanned from there.  Hence the
    two sums after the scan of a collection are the sums before it plus the
    contributions of exactly the cells that are not rejected, and the
    counter has advanced by their number. *)
Theorem cell_contributes_iff_not_rejected
    (jet : CaloJet) (pre post : list EcalRecHit) (h : EcalRecHit) (a : Acc) :
  let before := scan cfg jet pre a in
  (loop_body cfg jet before h <> before <-> ~ rejected cfg jet h) /\
  (~ rejected cfg jet h <-> qualifies cfg jet h = true) /\
  (rejected cfg jet h ->
   scan cfg jet (pre ++ h :: post) a = scan cfg jet post before) /\
  (~ rejected cfg jet h ->
   scan cfg jet (pre ++ h :: post) a =
   scan cfg jet post
     (mkAcc (weightedTimeCell before
             + time h * energy h * sinTheta (getPosition (detid h)))
            (totalEmEnergyCell before
             + energy h * sinTheta (getPosition (detid h)))
            (uint_incr (nCells before)))) /\
  scan cfg jet [] a = a /\
  (rejected cfg jet h -> scan cfg jet (pre ++ [h]) a = before) /\
  (~ rejected cfg jet h ->
   scan cfg jet (pre ++ [h]) a =
   mkAcc (weightedTimeCell before
          + time h * energy h * sinTheta (getPosition (detid h)))
         (totalEmEnergyCell before
          + energy h * sinTheta (getPosition (detid h)))
         (uint_incr (nCells before))) /\
  weightedTimeCell (scan cfg jet (pre ++ h :: post) a)
  = weightedTimeCell a
    + Qcsum (map (fun c => time c * energy c * sinTheta (getPosition (detid c)))
               (filter (qualifies cfg jet) (pre ++ h :: post))) /\
  totalEmEnergyCell (scan cfg jet (pre ++ h :: post) a)
  = totalEmEnergyCell a
    + Qcsum (map (fun c => energy c * sinTheta (getPosition (detid c)))
               (filter (qualifies cfg jet) (pre ++ h :: post))) /\
  ((nCells a < 2 ^ 32)%N ->
   nCells (scan cfg jet (pre ++ h :: post) a)
   = ((nCells a
       + N.of_nat (length (filter (qualifies cfg jet) (pre ++ h :: post))))
      mod 2 ^ 32)%N).
Proof.
  intros before.
  assert (Step : scan cfg jet (pre ++ h :: post) a =
                 scan cfg jet post (loop_body cfg jet before h)).
  { rewrite scan_app. reflexivity. }
  assert (Last : scan cfg jet (pre ++ [h]) a = loop_body cfg jet before h).
  { rewrite scan_app. reflexivity. }
  destruct (scan_sums jet (pre ++ h :: post) a) as [Sw Se].
  split; [|split; [|split; [|split; [|split; [reflexivity|
    split; [|split; [|split; [exact Sw|split; [exact Se|]]]]]]]]].
  - unfold loop_body. rewrite (rejected_skipped jet h).
    destruct (skipped cfg jet h); split; try congruence.
    intros _. apply accumulate_neq.
  - rewrite (rejected_skipped jet h), (skipped_qualifies jet h).
    destruct (qualifies cfg jet h); simpl; split; congruence.
  - intros R. rewrite Step. unfold loop_body.
    apply (rejected_skipped jet h) in R. now rewrite R.
  - intros R. rewrite Step. unfold loop_body.
    rewrite (rejected_skipped jet h) in R.
    destruct (skipped cfg jet h); [congruence|reflexivity].
  - intros R. rewrite Last. unfold loop_body.
    apply (rejected_skipped jet h) in R. now rewrite R.
  - intros R. rewrite Last. unfold loop_body.
    rewrite (rejected_skipped jet h) in R.
    destruct (skipped cfg jet h); [congruence|reflexivity].
  - intros Ha. rewrite scan_closed by exact Ha. reflexivity.
Qed.

(** A qualifying cell has at least the threshold energy. *)
Lemma qualifies_energy (jet : CaloJet) (h : EcalRecHit) :
  qualifies cfg jet h = true -> ecalCellEnergyThresh cfg <= energy h.
Proof.
  unfold qualifies. rewrite !andb_true_iff.
  intros [[[[_ E] _] _] _]. now apply Qcleb_le.
Qed.

(** When the energy threshold is not negative and no sin(theta) is, no
    qualifying cell has a negative weight. *)
Lemma nonneg_threshold_nonneg_weight (jet : CaloJet) (h : EcalRecHit) :
  0 <= ecalCellEnergyThresh cfg -> (forall p, 0 <= sinTheta p) ->
  qualifies cfg jet h = true -> 0 <= weight h.
Proof.
  intros Ht Hs Q. unfold weight.
  apply Qcmult_nonneg; [|apply Hs].
  apply Qcle_trans with (ecalCellEnergyThresh cfg); trivial.
  now apply qualifies_energy with jet.
Qed.

(** When the energy threshold and every sin(theta) are positive, one
    qualifying cell is enough for a positive energy sum. *)
Lemma positive_threshold_positive_sum (jet : CaloJet) (hits : list EcalRecHit) :
  0 < ecalCellEnergyThresh cfg -> (forall p, 0 < sinTheta p) ->
  qualifying cfg jet hits <> [] ->
  0 < Qcsum (map weight (qualifying cfg jet hits)).
Proof.
  intros Ht Hs Hne. apply Qcsum_pos.
  - intro E. apply Hne. now apply map_eq_nil in E.
  - apply Forall_forall. intros x Hx. apply in_map_iff in Hx.
    destruct Hx as [h [<- Hh]]. unfold qualifying in Hh.
    apply filter_In in Hh. destruct Hh as [_ Q]. unfold weight.
    apply Qcmult_pos; [|apply Hs].
    apply Qclt_le_trans with (ecalCellEnergyThresh cfg); trivial.
    now apply qualifies_energy with jet.
Qed.

(** [produce] lists, jet by jet, the three components of [perJet]. *)
Lemma produce_perJet (jets : list CaloJet) (eb ee : list EcalRecHit) :
  produce cfg jets eb ee =
  (map (fun jet => jetTime (perJet cfg jet eb ee)) jets,
   map (fun jet => jetEnergy (perJet cfg jet eb ee)) jets,
   map (fun jet => jetCells (perJet cfg jet eb ee)) jets).
Proof. unfold produce. now rewrite !map_map. Qed.

(** In exact arithmetic, where multiplying back undoes the division: with
    both regions enabled, and provided no qualifying barrel cell has a
    negative weight energy * sin(theta) (as is the case when the energy
    threshold and every sin(theta) are non-negative), the per-jet driver
    (barrel scan, rescaling, endcap scan into the same totals) yields the
    same (time, energy sum, count) as one scan of the concatenation, and
    as the direct formula over the qualifying cells of both collections.
    In binary32 the product of line 132 is rounded, and the merged time
    may differ from the single pass in its last bits. *)
Theorem merged_regions_equal_single_pass
    (jet : CaloJet) (eb ee : list EcalRecHit) :
  barrelJets cfg = true -> endcapJets cfg = true ->
  (forall h, In h eb -> qualifies cfg jet h = true -> 0 <= weight h) ->
  perJet cfg jet eb ee = emit (jetTimeFromEcalCells cfg jet (eb ++ ee) acc0) /\
  perJet cfg jet eb ee =
  singlePass (qualifying cfg jet eb ++ qualifying cfg jet ee).
Proof.
  intros Hb He Hw.
  assert (E : perJet cfg jet eb ee =
              emit (jetTimeFromEcalCells cfg jet (eb ++ ee) acc0)).
  { unfold perJet. rewrite Hb, He. unfold jetTimeFromEcalCells.
    rewrite (rescale_normalise _ (barrel_state_restorable jet eb Hw)).
    now rewrite scan_app. }
  split; [exact E|].
  rewrite E, single_scan_direct. now rewrite qualifying_app.
Qed.

(** The per-jet result does not depend on the order of the hits, whatever
    the regions enabled. *)
Lemma perJet_perm (jet : CaloJet) (eb eb' ee ee' : list EcalRecHit) :
  Permutation eb eb' -> Permutation ee ee' ->
  perJet cfg jet eb' ee' = perJet cfg jet eb ee.
Proof.
  intros Pb Pe. unfold perJet, jetTimeFromEcalCells.
  rewrite (scan_perm jet eb eb' acc0) by (trivial; reflexivity).
  destruct (barrelJets cfg), (endcapJets cfg); trivial.
  - f_equal. f_equal. symmetry. apply scan_perm; trivial.
    simpl. destruct (normalise_energy_cells (scan cfg jet eb' acc0)) as [_ ->].
    rewrite scan_closed by reflexivity. simpl. apply N.mod_lt. discriminate.
  - f_equal. f_equal. symmetry. apply scan_perm; trivial.
    rewrite rescale_acc0. reflexivity.
Qed.

(** C2, as amended.  With one region enabled, for every jet and hit
    collection whose qualifying cells have a positive sum of
    energy * sin(theta), the emitted time is the sum of
    time * energy * sin(theta) over exactly the qualifying cells divided by
    the sum of energy * sin(theta) over the same cells, and it is unchanged
    under any permutation of the hits. *)
Theorem emitted_time_is_weighted_mean
    (jet : CaloJet) (eb ee eb' ee' : list EcalRecHit) :
  xorb (barrelJets cfg) (endcapJets cfg) = true ->
  let hits := if barrelJets cfg then eb else ee in
  0 < Qcsum (map weight (qualifying cfg jet hits)) ->
  Permutation eb eb' -> Permutation ee ee' ->
  jetTime (perJet cfg jet eb ee) = weightedMean (qualifying cfg jet hits) /\
  jetTime (perJet cfg jet eb' ee') = jetTime (perJet cfg jet eb ee).
Proof.
  intros Hx hits Hpos Pb Pe. split.
  - assert (E : perJet cfg jet eb ee = singlePass (qualifying cfg jet hits)).
    { unfold perJet, hits.
      destruct (barrelJets cfg), (endcapJets cfg); try discriminate.
      - apply single_scan_direct.
      - rewrite rescale_acc0. apply single_scan_direct. }
    rewrite E. unfold singlePass, jetTime; simpl.
    apply Qcltb_lt in Hpos. now rewrite Hpos.
  - now rewrite (perJet_perm jet eb eb' ee ee').
Qed.

(** C7.  If no cell of any enabled region passes all per-cell predicates,
    the per-jet result is exactly (-50, 0, 0); and in every per-jet result
    a count of 0 comes with energy 0 and time -50.  The count is a 32-bit
    counter: the second part is stated for hit collections of fewer than
    2^32 cells in all, for which the counter is the number of qualifying
    cells. *)
Theorem no_qualifying_cell_gives_sentinel
    (jet : CaloJet) (eb ee : list EcalRecHit) :
  ((barrelJets cfg = true -> forall h, In h eb -> qualifies cfg jet h = false) ->
   (endcapJets cfg = true -> forall h, In h ee -> qualifies cfg jet h = false) ->
   perJet cfg jet eb ee = (QcZ (-50), 0, 0%N)) /\
  ((N.of_nat (length eb + length ee) < 2 ^ 32)%N ->
   jetCells (perJet cfg jet eb ee) = 0%N ->
   jetEnergy (perJet cfg jet eb ee) = 0 /\
   jetTime (perJet cfg jet eb ee) = QcZ (-50)).
Proof.
  split.
  - intros Hb He. apply perJet_none; intro F; apply qualifying_none; auto.
  - intros Hlen Hc. rewrite perJet_cells in Hc.
    set (qb := qualifying cfg jet (if barrelJets cfg then eb else [])) in *.
    set (qe := qualifying cfg jet (if endcapJets cfg then ee else [])) in *.
    assert (Lb : (length qb <= length eb)%nat).
    { unfold qb, qualifying. destruct (barrelJets cfg).
      - apply filter_length_le.
      - simpl. lia. }
    assert (Le : (length qe <= length ee)%nat).
    { unfold qe, qualifying. destruct (endcapJets cfg).
      - apply filter_length_le.
      - simpl. lia. }
    rewrite N.mod_small in Hc by lia.
    assert (Zb : qb = []) by (apply length_zero_iff_nil; lia).
    assert (Ze : qe = []) by (apply length_zero_iff_nil; lia).
    rewrite perJet_none.
    + split; reflexivity.
    + intros F. unfold qb in Zb. now rewrite F in Zb.
    + intros F. unfold qe in Ze. now rewrite F in Ze.
Qed.

(** C10.  With the barrel region disabled and the endcap region enabled,
    the per-jet driver yields exactly the result of a single endcap scan
    from fresh accumulators (the rescaling multiplies zero by zero), which
    is the direct formula over the qualifying endcap cells. *)
Theorem endcap_only_is_single_endcap_scan
    (jet : CaloJet) (eb ee : list EcalRecHit) :
  barrelJets cfg = false -> endcapJets cfg = true ->
  perJet cfg jet eb ee = emit (jetTimeFromEcalCells cfg jet ee acc0) /\
  perJet cfg jet eb ee = singlePass (qualifying cfg jet ee).
Proof.
  intros Hb He.
  assert (E : perJet cfg jet eb ee =
              emit (jetTimeFromEcalCells cfg jet ee acc0)).
  { unfold perJet. rewrite Hb, He. now rewrite rescale_acc0. }
  split; [exact E|]. rewrite E. apply single_scan_direct.
Qed.

End TimingProofs.

(** ** The di-jet filter *)

(** Generic facts about the loops: a flag that is only ever raised, a set
    that only ever grows. *)

Lemma fold_left_flag {A : Type} (f : bool -> A -> bool) (P : A -> Prop) :
  (forall c x, f c x = true <-> c = true \/ P x) ->
  forall l c, fold_left f l c = true <-> c = true \/ exists x, In x l /\ P x.
Proof.
  intros Hf. induction l as [|x l IH]; intros c; simpl.
  - split; [auto|]. intros [H|[x [[] _]]]. exact H.
  - rewrite IH, Hf. split.
    + intros [[H|H]|[y [Hy Py]]]; eauto.
    + intros [H|[y [[<-|Hy] Py]]]; eauto.
Qed.

Lemma fold_left_grow {A : Type} (f : list nat -> A -> list nat)
    (Q : A -> nat -> Prop) :
  (forall s x i, In i (f s x) <-> In i s \/ Q x i) ->
  forall l s i,
    In i (fold_left f l s) <-> In i s \/ exists x, In x l /\ Q x i.
Proof.
  intros Hf. induction l as [|x l IH]; intros s i; simpl.
  - split; [auto|]. intros [H|[x [[] _]]]. exact H.
  - rewrite IH, Hf. split.
    + intros [[H|H]|[y [Hy Py]]]; eauto.
    + intros [H|[y [[<-|Hy] Py]]]; eauto.
Qed.

Lemma fold_left_invariant {A B : Type} (f : B -> A -> B) (Inv : B -> Prop) :
  (forall s x, Inv s -> Inv (f s x)) ->
  forall l s, Inv s -> Inv (fold_left f l s).
Proof.
  intros Hf. induction l as [|x l IH]; intros s Hs; simpl; auto.
Qed.

Lemma in_range (a b i : nat) : In i (DiJet.range a b) <-> (a <= i < b)%nat.
Proof. unfold DiJet.range. rewrite in_seq. lia. Qed.

(** [std::set::insert]. *)

Lemma set_insert_In (i x : nat) (s : list nat) :
  In x (DiJet.set_insert i s) <-> x = i \/ In x s.
Proof.
  induction s as [|y s IH]; simpl.
  - intuition.
  - destruct (i <? y)%nat eqn:L; [simpl; intuition|].
    destruct (i =? y)%nat eqn:E.
    + apply Nat.eqb_eq in E. subst. simpl. intuition.
    + simpl. rewrite IH. intuition.
Qed.

Lemma set_insert_sorted (i : nat) (s : list nat) :
  StronglySorted lt s -> StronglySorted lt (DiJet.set_insert i s).
Proof.
  induction 1 as [|y s Hs IH Hy]; simpl.
  - repeat constructor.
  - destruct (i <? y)%nat eqn:L.
    + apply Nat.ltb_lt in L. constructor; [now constructor|].
      constructor; trivial.
      eapply Forall_impl; [|exact Hy]. intros z Hz. simpl in Hz. lia.
    + destruct (i =? y)%nat eqn:E; [now constructor|].
      apply Nat.ltb_ge in L. apply Nat.eqb_neq in E.
      constructor; trivial.
      apply Forall_forall. intros z Hz. apply set_insert_In in Hz.
      destruct Hz as [->|Hz]; [lia|].
      rewrite Forall_forall in Hy. now apply Hy.
Qed.

Lemma sorted_lt_NoDup (s : list nat) : StronglySorted lt s -> NoDup s.
Proof.
  induction 1 as [|y s Hs IH Hy]; constructor; trivial.
  intro Hin. rewrite Forall_forall in Hy. specialize (Hy _ Hin). lia.
Qed.

Section DiJetProofs.

Import DiJet.
Context {K : Kinematics}.

(** *** The tau loops *)

Lemma away_false (cfg : Config) (j1 j2 : PFJet) (t : PFTau) :
  awayFromJets cfg j1 j2 t <->
  Qcltb (deltaR2 (tauP4 t) (jetP4 j1)) (matchingR2 cfg) = false /\
  Qcltb (deltaR2 (tauP4 t) (jetP4 j2)) (matchingR2 cfg) = false.
Proof. unfold awayFromJets. now rewrite !Qcltb_ge. Qed.

Lemma tau2_body_true (cfg : Config) (taus : list PFTau) (j1 j2 : PFJet)
    (k1 : nat) (c : bool) (k2 : nat) :
  tau2_body cfg taus j1 j2 k1 c k2 = true <->
  c = true \/
  exists t1 t2,
    nth_error taus k1 = Some t1 /\ nth_error taus k2 = Some t2 /\
    awayFromJets cfg j1 j2 t2 /\
    ~ (tauPt t1 < extraTauPtCut cfg /\ tauPt t2 < extraTauPtCut cfg).
Proof.
  unfold tau2_body.
  destruct (nth_error taus k1) as [t1|];
    [|split; [auto|intros [H|(? & ? & ? & _)]; [exact H|discriminate]]].
  destruct (nth_error taus k2) as [t2|];
    [|split; [auto|intros [H|(? & ? & _ & ? & _)]; [exact H|discriminate]]].
  destruct (Qcltb (deltaR2 (tauP4 t2) (jetP4 j1)) (matchingR2 cfg)) eqn:E1.
  { split; [auto|]. intros [H|(a & b & _ & Hb & F & _)]; trivial.
    injection Hb as <-. apply away_false in F. destruct F. congruence. }
  destruct (Qcltb (deltaR2 (tauP4 t2) (jetP4 j2)) (matchingR2 cfg)) eqn:E2.
  { split; [auto|]. intros [H|(a & b & _ & Hb & F & _)]; trivial.
    injection Hb as <-. apply away_false in F. destruct F. congruence. }
  assert (A2 : awayFromJets cfg j1 j2 t2) by (apply away_false; auto).
  destruct (Qcltb (tauPt t1) (extraTauPtCut cfg)) eqn:E3;
    destruct (Qcltb (tauPt t2) (extraTauPtCut cfg)) eqn:E4; simpl.
  - split; [auto|]. intros [H|(a & b & Ha & Hb & _ & F)]; trivial.
    injection Ha as <-. injection Hb as <-. exfalso. apply F.
    split; now apply Qcltb_lt.
  - split; [|reflexivity]. intros _. right. exists t1, t2.
    split; [reflexivity|split; [reflexivity|split; [exact A2|]]].
    intros [_ F]. apply Qcltb_lt in F. congruence.
  - split; [|reflexivity]. intros _. right. exists t1, t2.
    split; [reflexivity|split; [reflexivity|split; [exact A2|]]].
    intros [F _]. apply Qcltb_lt in F. congruence.
  - split; [|reflexivity]. intros _. right. exists t1, t2.
    split; [reflexivity|split; [reflexivity|split; [exact A2|]]].
    intros [F _]. apply Qcltb_lt in F. congruence.
Qed.

Lemma tau1_body_true (cfg : Config) (taus : list PFTau) (j1 j2 : PFJet)
    (c : bool) (k1 : nat) :
  tau1_body cfg taus j1 j2 c k1 = true <->
  c = true \/
  exists k2 t1 t2,
    (k1 < k2)%nat /\
    nth_error taus k1 = Some t1 /\ nth_error taus k2 = Some t2 /\
    awayFromJets cfg j1 j2 t1 /\ awayFromJets cfg j1 j2 t2 /\
    ~ (tauPt t1 < extraTauPtCut cfg /\ tauPt t2 < extraTauPtCut cfg).
Proof.
  unfold tau1_body.
  destruct (nth_error taus k1) as [t1|] eqn:N1;
    [|split; [auto|intros [H|(? & ? & ? & _ & ? & _)];
                     [exact H|discriminate]]].
  pose proof (away_false cfg j1 j2 t1) as Away.
  destruct (Qcltb (deltaR2 (tauP4 t1) (jetP4 j1)) (matchingR2 cfg)) eqn:E1.
  { split; [auto|]. intros [H|(k2 & a & b & _ & Ha & _ & F & _)]; trivial.
    injection Ha as <-. apply Away in F. destruct F. discriminate. }
  destruct (Qcltb (deltaR2 (tauP4 t1) (jetP4 j2)) (matchingR2 cfg)) eqn:E2.
  { split; [auto|]. intros [H|(k2 & a & b & _ & Ha & _ & F & _)]; trivial.
    injection Ha as <-. apply Away in F. destruct F. discriminate. }
  rewrite (fold_left_flag _ _ (tau2_body_true cfg taus j1 j2 k1)).
  split.
  - intros [H|(k2 & Hin & a & b & Ha & Hb & Hab & Hpt)]; [auto|].
    right. apply in_range in Hin. exists k2, a, b.
    rewrite N1 in Ha. injection Ha as <-.
    split; [lia|]. split; [reflexivity|]. split; [exact Hb|].
    split; [apply Away; auto|]. split; assumption.
  - intros [H|(k2 & a & b & Hlt & Ha & Hb & _ & Hab & Hpt)]; [auto|].
    right. exists k2. split.
    + apply in_range. split; [lia|].
      apply nth_error_Some. congruence.
    + exists a, b. rewrite N1. auto.
Qed.

(** The tau loops raise [correctComb] exactly when a qualifying tau pair
    exists. *)
Lemma tauLoops_qualifying (cfg : Config) (taus : list PFTau) (j1 j2 : PFJet) :
  tauLoops cfg taus j1 j2 = true <-> qualifyingTauPair cfg taus j1 j2.
Proof.
  unfold tauLoops, qualifyingTauPair.
  rewrite (fold_left_flag _ _ (tau1_body_true cfg taus j1 j2)).
  split.
  - intros [H|(k1 & _ & k2 & t1 & t2 & H)]; [discriminate|].
    exists k1, k2, t1, t2. exact H.
  - intros (k1 & k2 & t1 & t2 & Hlt & H1 & H).
    right. exists k1. split.
    + apply in_range. split; [lia|]. apply nth_error_Some. congruence.
    + exists k2, t1, t2. auto.
Qed.

Lemma qualifying_away (cfg : Config) (taus : list PFTau) (j1 j2 : PFJet) :
  qualifyingTauPair cfg taus j1 j2 -> tauPairAwayFromJets cfg taus j1 j2.
Proof.
  intros (k1 & k2 & t1 & t2 & Hlt & H1 & H2 & A1 & A2 & _).
  exists k1, k2, t1, t2. auto.
Qed.

(** *** The jet loops *)

Lemma correctComb_true (cfg : Config) (pfJets : list PFJet)
    (taus : list PFTau) (a b : nat) :
  correctComb cfg pfJets taus a b = true <->
  exists j1 j2,
    nth_error pfJets a = Some j1 /\ nth_error pfJets b = Some j2 /\
    mjjMin cfg <= sumM (jetP4 j1) (jetP4 j2) /\
    qualifyingTauPair cfg taus j1 j2.
Proof.
  unfold correctComb.
  destruct (nth_error pfJets a) as [j1|];
    [|split; [discriminate|intros (? & ? & ? & _); discriminate]].
  destruct (nth_error pfJets b) as [j2|];
    [|split; [discriminate|intros (? & ? & _ & ? & _); discriminate]].
  destruct (Qcltb (sumM (jetP4 j1) (jetP4 j2)) (mjjMin cfg)) eqn:E.
  - split; [discriminate|]. intros (x & y & Hx & Hy & F & _).
    injection Hx as <-. injection Hy as <-.
    apply Qcltb_ge in F. congruence.
  - rewrite tauLoops_qualifying. apply Qcltb_ge in E. split.
    + intros H. exists j1, j2. auto.
    + intros (x & y & Hx & Hy & _ & H).
      injection Hx as <-. injection Hy as <-. exact H.
Qed.

Lemma correctComb_qualifyingJetPair (cfg : Config) (pfJets : list PFJet)
    (taus : list PFTau) (a b : nat) :
  qualifyingJetPair cfg pfJets taus a b <->
  (a < b)%nat /\ correctComb cfg pfJets taus a b = true.
Proof. unfold qualifyingJetPair. now rewrite correctComb_true. Qed.

Lemma jet2_body_In (cfg : Config) (pfJets : list PFJet) (taus : list PFTau)
    (a : nat) (s : list nat) (b i : nat) :
  In i (jet2_body cfg pfJets taus a s b) <->
  In i s \/ (correctComb cfg pfJets taus a b = true /\ (i = a \/ i = b)).
Proof.
  unfold jet2_body.
  destruct (correctComb cfg pfJets taus a b).
  - rewrite !set_insert_In. intuition.
  - intuition discriminate.
Qed.

Lemma jet1_body_In (cfg : Config) (pfJets : list PFJet) (taus : list PFTau)
    (s : list nat) (a i : nat) :
  In i (jet1_body cfg pfJets taus s a) <->
  In i s \/
  exists b, qualifyingJetPair cfg pfJets taus a b /\ (i = a \/ i = b).
Proof.
  unfold jet1_body.
  rewrite (fold_left_grow _ _ (jet2_body_In cfg pfJets taus a)).
  split; (intros [H|(b & H1 & H2)]; [auto|right; exists b]).
  - apply in_range in H1. rewrite correctComb_qualifyingJetPair.
    intuition lia.
  - rewrite correctComb_qualifyingJetPair in H1.
    destruct H1 as [Hlt Hc]. split; [|auto].
    apply in_range. split; [lia|].
    apply correctComb_true in Hc. destruct Hc as (j1 & j2 & _ & Hb & _).
    apply nth_error_Some. congruence.
Qed.

Lemma jetLoops_In (cfg : Config) (pfJets : list PFJet) (taus : list PFTau)
    (i : nat) :
  In i (fold_left (jet1_body cfg pfJets taus) (range 0 (length pfJets)) []) <->
  exists a b, qualifyingJetPair cfg pfJets taus a b /\ (i = a \/ i = b).
Proof.
  rewrite (fold_left_grow _ _ (jet1_body_In cfg pfJets taus)).
  split.
  - intros [[]|(a & _ & b & H)]. exists a, b. exact H.
  - intros (a & b & H & Hi). right. exists a. split; [|eauto].
    apply in_range. split; [lia|].
    destruct H as (_ & j1 & j2 & Ha & _).
    apply nth_error_Some. congruence.
Qed.

(** A qualifying jet pair needs two jets and two taus. *)
Lemma qualifyingJetPair_sizes (cfg : Config) (pfJets : list PFJet)
    (taus : list PFTau) (a b : nat) :
  qualifyingJetPair cfg pfJets taus a b ->
  (1 < length pfJets)%nat /\ (1 < length taus)%nat.
Proof.
  intros (Hlt & j1 & j2 & _ & Hb & _ & k1 & k2 & t1 & t2 & Hk & _ & H2 & _).
  assert (b < length pfJets)%nat by (apply nth_error_Some; congruence).
  assert (k2 < length taus)%nat by (apply nth_error_Some; congruence).
  lia.
Qed.

(** The set [indices] holds exactly the positions of the jets of the
    qualifying pairs. *)
Lemma indices_In (cfg : Config) (pfJets : list PFJet) (taus : list PFTau)
    (i : nat) :
  In i (indices cfg pfJets taus) <->
  exists a b, qualifyingJetPair cfg pfJets taus a b /\ (i = a \/ i = b).
Proof.
  unfold indices.
  destruct ((1 <? length pfJets)%nat && (1 <? length taus)%nat) eqn:Gd.
  - apply jetLoops_In.
  - split; [intros []|]. intros (a & b & H & _).
    apply qualifyingJetPair_sizes in H. destruct H as [H1 H2].
    apply Nat.ltb_lt in H1, H2. rewrite H1, H2 in Gd. discriminate.
Qed.

Lemma indices_sorted (cfg : Config) (pfJets : list PFJet) (taus : list PFTau) :
  StronglySorted lt (indices cfg pfJets taus).
Proof.
  unfold indices.
  destruct ((1 <? length pfJets)%nat && (1 <? length taus)%nat);
    [|constructor].
  apply fold_left_invariant; [|constructor].
  intros s a Hs. unfold jet1_body.
  apply fold_left_invariant; trivial.
  intros s' b Hs'. unfold jet2_body.
  destruct (correctComb cfg pfJets taus a b); trivial.
  now do 2 apply set_insert_sorted.
Qed.

Lemma indices_in_range (cfg : Config) (pfJets : list PFJet)
    (taus : list PFTau) (i : nat) :
  In i (indices cfg pfJets taus) -> (i < length pfJets)%nat.
Proof.
  intros H. apply indices_In in H.
  destruct H as (a & b & (_ & j1 & j2 & Ha & Hb & _) & [->| ->]);
    apply nth_error_Some; congruence.
Qed.

(** *** Materialising and sorting the selected jets *)

Lemma cleanedPFJets_In (cfg : Config) (pfJets : list PFJet)
    (taus : list PFTau) (jet : PFJet) :
  In jet (cleanedPFJets cfg pfJets taus) <->
  exists i, In i (indices cfg pfJets taus) /\ nth_error pfJets i = Some jet.
Proof.
  unfold cleanedPFJets. rewrite in_flat_map. split.
  - intros (i & Hi & Hj). exists i. split; trivial.
    destruct (nth_error pfJets i) as [x|]; simpl in Hj; [|contradiction].
    destruct Hj as [->|[]]. reflexivity.
  - intros (i & Hi & Hj). exists i. split; trivial.
    rewrite Hj. now left.
Qed.

Lemma cleanedPFJets_lookup (cfg : Config) (pfJets : list PFJet)
    (taus : list PFTau) :
  Forall2 (fun i jet => nth_error pfJets i = Some jet)
          (indices cfg pfJets taus) (cleanedPFJets cfg pfJets taus).
Proof.
  unfold cleanedPFJets.
  pose proof (indices_in_range cfg pfJets taus) as R.
  induction (indices cfg pfJets taus) as [|i idx IH]; simpl.
  - constructor.
  - destruct (nth_error pfJets i) as [x|] eqn:E.
    + simpl. constructor; trivial. apply IH. intros k Hk. apply R. now right.
    + exfalso. apply nth_error_None in E.
      specialize (R i (or_introl eq_refl)). lia.
Qed.

Lemma sort_insert_perm (comp : PFJet -> PFJet -> bool) (x : PFJet)
    (l : list PFJet) :
  Permutation (sort_insert comp x l) (x :: l).
Proof.
  induction l as [|y l IH]; simpl.
  - apply Permutation_refl.
  - destruct (comp x y).
    + apply Permutation_refl.
    + eapply Permutation_trans; [apply perm_skip, IH|apply perm_swap].
Qed.

Lemma std_sort_perm (comp : PFJet -> PFJet -> bool) (l : list PFJet) :
  Permutation (std_sort comp l) l.
Proof.
  induction l as [|x l IH]; simpl.
  - constructor.
  - eapply Permutation_trans; [apply sort_insert_perm|now apply perm_skip].
Qed.

Lemma sort_insert_descending (x : PFJet) (l : list PFJet) :
  descendingPt l -> descendingPt (sort_insert GreaterByPt x l).
Proof.
  unfold descendingPt.
  induction 1 as [|y l Hl IH Hy]; simpl.
  - repeat constructor.
  - unfold GreaterByPt at 1.
    destruct (Qcltb (jetPt y) (jetPt x)) eqn:E.
    + apply Qcltb_lt in E. apply Qclt_le_weak in E.
      constructor; [now constructor|].
      constructor; trivial.
      eapply Forall_impl; [|exact Hy]. intros z Hz. simpl in Hz.
      now apply Qcle_trans with (jetPt y).
    + apply Qcltb_ge in E. constructor; trivial.
      apply Forall_forall. intros z Hz.
      apply (Permutation_in _ (sort_insert_perm GreaterByPt x l)) in Hz.
      destruct Hz as [<-|Hz]; trivial.
      rewrite Forall_forall in Hy. now apply Hy.
Qed.

Lemma std_sort_descending (l : list PFJet) :
  descendingPt (std_sort GreaterByPt l).
Proof.
  induction l as [|x l IH]; simpl.
  - constructor.
  - now apply sort_insert_descending.
Qed.

Lemma produce_In (cfg : Config) (pfJets : list PFJet) (taus : list PFTau)
    (jet : PFJet) :
  In jet (produce cfg pfJets taus) <->
  exists i, In i (indices cfg pfJets taus) /\ nth_error pfJets i = Some jet.
Proof.
  rewrite <- cleanedPFJets_In. unfold produce. split.
  - apply Permutation_in. apply std_sort_perm.
  - apply Permutation_in. apply Permutation_sym, std_sort_perm.
Qed.

(** *** Properties of the filter *)

(** What a matched pair does guarantee: for every jet pair (j1, j2) that
    the filter marks as matched there is a tau pair (t1, t2), t1 before t2
    in the tau sequence, such that t1 and t2 each have squared angular
    distance >= dRmin^2 from both j1 and j2. *)
Theorem matched_pair_has_tau_pair_away_from_jets
    (cfg : Config) (pfJets : list PFJet) (taus : list PFTau) (iJet1 iJet2 : nat) :
  correctComb cfg pfJets taus iJet1 iJet2 = true ->
  exists j1 j2,
    nth_error pfJets iJet1 = Some j1 /\ nth_error pfJets iJet2 = Some j2 /\
    tauPairAwayFromJets cfg taus j1 j2.
Proof.
  intros H. apply correctComb_true in H.
  destruct H as (j1 & j2 & H1 & H2 & _ & Q).
  exists j1, j2. auto using qualifying_away.
Qed.

(** C5, as amended.  For every input jet and tau collection, the jet
    collection emitted by the filter is sorted descending by transverse
    momentum: each element's pt is greater than or equal to the pt of every
    later element. *)
Theorem output_sorted_descending_by_pt
    (cfg : Config) (pfJets : list PFJet) (taus : list PFTau) :
  descendingPt (produce cfg pfJets taus).
Proof. unfold produce. apply std_sort_descending. Qed.

(** C6.  For fixed jets, taus, extraTauPtCut and dRmin and thresholds
    m1 <= m2, the jets retained with mjjMin = m2 are among those retained
    with mjjMin = m1, as positions in the input and as jets of the output. *)
Theorem raising_mjjMin_shrinks_retained_set
    (cut dr m1 m2 : Qc) (pfJets : list PFJet) (taus : list PFTau) :
  m1 <= m2 ->
  incl (indices (mkConfig cut m2 dr) pfJets taus)
       (indices (mkConfig cut m1 dr) pfJets taus) /\
  incl (produce (mkConfig cut m2 dr) pfJets taus)
       (produce (mkConfig cut m1 dr) pfJets taus).
Proof.
  intros Hm.
  assert (I : incl (indices (mkConfig cut m2 dr) pfJets taus)
                   (indices (mkConfig cut m1 dr) pfJets taus)).
  { intros i Hi. apply indices_In in Hi. apply indices_In.
    destruct Hi as (a & b & (Hlt & j1 & j2 & Ha & Hb & HM & Htau) & Hi).
    exists a, b. split; trivial. split; trivial.
    exists j1, j2.
    split; [exact Ha|split; [exact Hb|split; [|exact Htau]]].
    simpl in *. now apply Qcle_trans with m2. }
  split; trivial.
  intros jet Hj. apply produce_In in Hj. apply produce_In.
  destruct Hj as (i & Hi & Hl). exists i. auto.
Qed.

(** C8.  With fewer than 2 jets or fewer than 2 taus the filter returns an
    empty jet collection. *)
Theorem fewer_than_two_gives_empty
    (cfg : Config) (pfJets : list PFJet) (taus : list PFTau) :
  (length pfJets < 2)%nat \/ (length taus < 2)%nat ->
  produce cfg pfJets taus = [].
Proof.
  intros H. unfold produce, cleanedPFJets, indices.
  assert (Gd : (1 <? length pfJets)%nat && (1 <? length taus)%nat = false).
  { apply andb_false_iff. destruct H; [left|right]; apply Nat.ltb_ge; lia. }
  rewrite Gd. reflexivity.
Qed.


End DiJetProofs.

(** * Worked examples *)

Section TimingExamples.

Import Timing.

(** A hit sitting exactly on the energy, time, time-uncertainty and
    matching-radius thresholds is accepted. *)
Example cell_on_thresholds_accepted :
  ~ rejected boundaryConfig tt boundaryHit /\
  perJet boundaryConfig tt [] [boundaryHit]
  = (Qcfrac (-25) 2, Qcfrac 1 4, 1%N).
Proof.
  split.
  - rewrite rejected_skipped. vm_compute. discriminate.
  - assert (E : forall r : Qc * Qc * N,
               jetTime r = Qcfrac (-25) 2 -> jetEnergy r = Qcfrac 1 4 ->
               jetCells r = 1%N -> r = (Qcfrac (-25) 2, Qcfrac 1 4, 1%N)).
    { intros [[t e] n]; unfold jetTime, jetEnergy, jetCells; simpl.
      congruence. }
    apply E; [qc_eq|qc_eq|reflexivity].
Qed.

(** Both regions, default thresholds: one barrel hit and one endcap hit. *)
Lemma merged_regions_witness :
  barrelJets defaultConfig = true /\ endcapJets defaultConfig = true /\
  (forall h, In h [hitB (QcZ 2) 1] -> qualifies defaultConfig tt h = true ->
             0 <= weight h) /\
  perJet defaultConfig tt [hitB (QcZ 2) 1] [hitE (QcZ 5) (QcZ 3)]
  = emit (jetTimeFromEcalCells defaultConfig tt
            ([hitB (QcZ 2) 1] ++ [hitE (QcZ 5) (QcZ 3)]) (mkAcc 0 0 0%N)) /\
  perJet defaultConfig tt [hitB (QcZ 2) 1] [hitE (QcZ 5) (QcZ 3)]
  = singlePass (qualifying defaultConfig tt [hitB (QcZ 2) 1]
                ++ qualifying defaultConfig tt [hitE (QcZ 5) (QcZ 3)]).
Proof.
  assert (W : forall h, In h [hitB (QcZ 2) 1] ->
                        qualifies defaultConfig tt h = true -> 0 <= weight h).
  { intros h [<-|[]] _. qc_order. }
  split; [reflexivity|]. split; [reflexivity|]. split; [exact W|].
  apply (merged_regions_equal_single_pass defaultConfig tt
           [hitB (QcZ 2) 1] [hitE (QcZ 5) (QcZ 3)] eq_refl eq_refl W).
Defined.

(** C1.  The driver with both regions enabled does not always yield the
    single pass over the qualifying cells of both collections: the
    division of line 105 is guarded by [totalEmEnergyCell > 0], the
    multiplication of line 132 that is to undo it is not.  With an energy
    threshold of -1, a barrel hit of energy -1/2 and an endcap hit of
    energy 5, both at time 1: the barrel scan ends with the sums
    (-1/2, -1/2), which line 104 leaves undivided and line 132 multiplies
    into 1/4; the endcap hit (weight 5/2) brings the sums to (11/4, 2) and
    the emitted time is 11/8, where the single pass over both cells gives
    (-1/2 + 5/2) / 2 = 1.  Every number involved is a binary fraction, so
    the evaluation is the same in binary32. *)
Theorem merged_time_wrong_on_negative_barrel_sum :
  barrelJets lowThreshConfig = true /\ endcapJets lowThreshConfig = true /\
  jetTime (perJet lowThreshConfig tt
             [hitB (Qcfrac (-1) 2) 1] [hitE (QcZ 5) 1]) = Qcfrac 11 8 /\
  jetTime (singlePass (qualifying lowThreshConfig tt [hitB (Qcfrac (-1) 2) 1]
                       ++ qualifying lowThreshConfig tt [hitE (QcZ 5) 1])) = 1 /\
  perJet lowThreshConfig tt [hitB (Qcfrac (-1) 2) 1] [hitE (QcZ 5) 1]
  <> singlePass (qualifying lowThreshConfig tt [hitB (Qcfrac (-1) 2) 1]
                 ++ qualifying lowThreshConfig tt [hitE (QcZ 5) 1]) /\
  perJet lowThreshConfig tt [hitB (Qcfrac (-1) 2) 1] [hitE (QcZ 5) 1]
  <> emit (jetTimeFromEcalCells lowThreshConfig tt
             ([hitB (Qcfrac (-1) 2) 1] ++ [hitE (QcZ 5) 1]) (mkAcc 0 0 0%N)).
Proof.
  split; [reflexivity|]. split; [reflexivity|].
  split; [qc_eq|]. split; [qc_eq|]. split.
  - intro H. apply (f_equal jetTime) in H. revert H. qc_neq.
  - intro H. apply (f_equal jetTime) in H. revert H. qc_neq.
Qed.

(** Barrel only, default thresholds, two qualifying hits and their swap. *)
Lemma emitted_time_witness :
  xorb (barrelJets barrelConfig) (endcapJets barrelConfig) = true /\
  0 < Qcsum (map weight (qualifying barrelConfig tt
                           [hitB (QcZ 2) 1; hitB 1 (QcZ 3)])) /\
  Permutation [hitB (QcZ 2) 1; hitB 1 (QcZ 3)]
              [hitB 1 (QcZ 3); hitB (QcZ 2) 1] /\
  jetTime (perJet barrelConfig tt [hitB (QcZ 2) 1; hitB 1 (QcZ 3)] [])
  = weightedMean (qualifying barrelConfig tt [hitB (QcZ 2) 1; hitB 1 (QcZ 3)]) /\
  jetTime (perJet barrelConfig tt [hitB 1 (QcZ 3); hitB (QcZ 2) 1] [])
  = jetTime (perJet barrelConfig tt [hitB (QcZ 2) 1; hitB 1 (QcZ 3)] []).
Proof.
  assert (P : 0 < Qcsum (map weight (qualifying barrelConfig tt
                                       [hitB (QcZ 2) 1; hitB 1 (QcZ 3)])))
    by qc_order.
  split; [reflexivity|]. split; [exact P|]. split; [apply perm_swap|].
  exact (emitted_time_is_weighted_mean barrelConfig tt
           [hitB (QcZ 2) 1; hitB 1 (QcZ 3)] []
           [hitB 1 (QcZ 3); hitB (QcZ 2) 1] []
           eq_refl P (perm_swap _ _ _) (perm_nil _)).
Defined.

(** Barrel only with an energy threshold of 0: a single hit of energy 0 at
    time 1 passes every per-cell predicate and is counted; the sum of
    energy * sin(theta) is 0, not positive, so line 104 does not divide and
    the emitted triple is (-50, 0, 1): no quotient of the two sums is
    emitted. *)
Lemma emitted_time_counterexample :
  qualifies zeroThreshBarrelConfig tt (hitB 0 1) = true /\
  perJet zeroThreshBarrelConfig tt [hitB 0 1] [] = (QcZ (-50), 0, 1%N) /\
  Qcsum (map weight (qualifying zeroThreshBarrelConfig tt [hitB 0 1])) = 0 /\
  jetTime (perJet zeroThreshBarrelConfig tt [hitB 0 1] [])
  <> weightedMean (qualifying zeroThreshBarrelConfig tt [hitB 0 1]).
Proof.
  split; [reflexivity|]. split; [|split; [qc_eq|qc_neq]].
  assert (E : forall r : Qc * Qc * N,
             jetTime r = QcZ (-50) -> jetEnergy r = 0 ->
             jetCells r = 1%N -> r = (QcZ (-50), 0, 1%N)).
  { intros [[t e] n]; unfold jetTime, jetEnergy, jetCells; simpl.
    congruence. }
  apply E; [qc_eq|qc_eq|reflexivity].
Qed.

(** Both regions, default thresholds: a barrel hit below the energy
    threshold and no endcap hit. *)
Lemma no_qualifying_cell_witness :
  perJet defaultConfig tt [hitB (Qcfrac 1 10) 1] [] = (QcZ (-50), 0, 0%N) /\
  (jetEnergy (perJet defaultConfig tt [hitB (Qcfrac 1 10) 1] []) = 0 /\
   jetTime (perJet defaultConfig tt [hitB (Qcfrac 1 10) 1] []) = QcZ (-50)).
Proof.
  destruct (no_qualifying_cell_gives_sentinel defaultConfig tt
              [hitB (Qcfrac 1 10) 1] []) as [P1 P2].
  split.
  - apply P1; [intros _ h [<-|[]]; reflexivity | intros _ h []].
  - apply P2; reflexivity.
Defined.

(** Endcap only, default thresholds. *)
Lemma endcap_only_witness :
  barrelJets endcapConfig = false /\ endcapJets endcapConfig = true /\
  perJet endcapConfig tt [hitB (QcZ 2) 1] [hitE (QcZ 5) (QcZ 3)]
  = emit (jetTimeFromEcalCells endcapConfig tt [hitE (QcZ 5) (QcZ 3)]
            (mkAcc 0 0 0%N)) /\
  perJet endcapConfig tt [hitB (QcZ 2) 1] [hitE (QcZ 5) (QcZ 3)]
  = singlePass (qualifying endcapConfig tt [hitE (QcZ 5) (QcZ 3)]).
Proof.
  split; [reflexivity|]. split; [reflexivity|].
  apply (endcap_only_is_single_endcap_scan endcapConfig tt
           [hitB (QcZ 2) 1] [hitE (QcZ 5) (QcZ 3)] eq_refl eq_refl).
Defined.

End TimingExamples.

Section DiJetExamples.

Import DiJet.

(** The sample scenario: three jets of pt 40, 120 and 80 and two taus of
    pt 50 and 30 away from all of them.  The pairs of mass 600 and 900
    qualify, all three jets are retained, largest pt first. *)
Example sample_scenario :
  indices sampleConfig [jetC; jetA; jetB] [tau50; tau30] = [0; 1; 2]%nat /\
  produce sampleConfig [jetC; jetA; jetB] [tau50; tau30] = [jetA; jetB; jetC].
Proof. split; vm_compute; reflexivity. Qed.

(** Jets A and B with the taus of pt 50 and 30. *)
Lemma matched_pair_witness :
  correctComb sampleConfig [jetA; jetB] [tau50; tau30] 0 1 = true /\
  exists j1 j2,
    nth_error [jetA; jetB] 0 = Some j1 /\ nth_error [jetA; jetB] 1 = Some j2 /\
    tauPairAwayFromJets sampleConfig [tau50; tau30] j1 j2.
Proof.
  assert (C : correctComb sampleConfig [jetA; jetB] [tau50; tau30] 0 1 = true)
    by (vm_compute; reflexivity).
  split; [exact C|].
  exact (matched_pair_has_tau_pair_away_from_jets sampleConfig
           [jetA; jetB] [tau50; tau30] 0 1 C).
Defined.

(** C3.  A jet pair can be marked as matched, and stored, without any tau
    pair that is isolated from both jets and from each other: the loops of
    lines 79-95 compare each tau with the two jets and never the two taus
    with each other, although the header of the file announces "no overlap
    (within dRmin) between j1, j2, t1, t2".  Jets A and B with two tau
    candidates almost on top of each other (squared distance 1/25, below
    dRmin^2 = 1/4), both far from the jets: the pair (A, B) is marked as
    matched and both jets are emitted, yet the only tau pair overlaps. *)
Theorem matched_pair_stored_with_overlapping_taus :
  correctComb sampleConfig [jetA; jetB] [tau50; tau30near] 0 1 = true /\
  nth_error [jetA; jetB] 0 = Some jetA /\
  nth_error [jetA; jetB] 1 = Some jetB /\
  produce sampleConfig [jetA; jetB] [tau50; tau30near] = [jetA; jetB] /\
  ~ isolatedTauPair sampleConfig [tau50; tau30near] jetA jetB.
Proof.
  split; [vm_compute; reflexivity|].
  split; [reflexivity|]. split; [reflexivity|].
  split; [vm_compute; reflexivity|].
  intros (k1 & k2 & t1 & t2 & Hlt & H1 & H2 & _ & _ & Htt).
  destruct k2 as [|[|k2]];
    [lia| |simpl in H2; destruct k2; discriminate H2].
  destruct k1 as [|k1]; [|lia].
  simpl in H1, H2. injection H1 as <-. injection H2 as <-.
  vm_compute in Htt. apply Htt. reflexivity.
Qed.

(** The sample scenario is emitted with pt 120, 80, 40: not ascending. *)
Lemma output_order_counterexample :
  map jetPt (produce sampleConfig [jetC; jetA; jetB] [tau50; tau30])
  = [QcZ 120; QcZ 80; QcZ 40] /\
  ~ ascendingPt (produce sampleConfig [jetC; jetA; jetB] [tau50; tau30]).
Proof.
  destruct sample_scenario as [_ ->].
  split; [reflexivity|].
  intro H. inversion H as [|? ? _ HF]; subst.
  inversion HF as [|? ? Hle _]; subst.
  vm_compute in Hle. apply Hle. reflexivity.
Qed.

(** The sample scenario with mjjMin lowered from 500 to 400. *)
Lemma raising_mjjMin_witness :
  QcZ 400 <= QcZ 500 /\
  incl (indices (mkConfig (QcZ 45) (QcZ 500) (Qcfrac 1 2))
          [jetC; jetA; jetB] [tau50; tau30])
       (indices (mkConfig (QcZ 45) (QcZ 400) (Qcfrac 1 2))
          [jetC; jetA; jetB] [tau50; tau30]) /\
  incl (produce (mkConfig (QcZ 45) (QcZ 500) (Qcfrac 1 2))
          [jetC; jetA; jetB] [tau50; tau30])
       (produce (mkConfig (QcZ 45) (QcZ 400) (Qcfrac 1 2))
          [jetC; jetA; jetB] [tau50; tau30]).
Proof.
  assert (L : QcZ 400 <= QcZ 500) by qc_order.
  split; [exact L|].
  exact (raising_mjjMin_shrinks_retained_set (QcZ 45) (Qcfrac 1 2)
           (QcZ 400) (QcZ 500) [jetC; jetA; jetB] [tau50; tau30] L).
Defined.

(** A single jet. *)
Lemma fewer_than_two_witness :
  ((length [jetA] < 2)%nat \/ (length [tau50; tau30] < 2)%nat) /\
  produce sampleConfig [jetA] [tau50; tau30] = [].
Proof.
  assert (H : (length [jetA] < 2)%nat \/ (length [tau50; tau30] < 2)%nat)
    by (left; simpl; lia).
  split; [exact H|].
  exact (fewer_than_two_gives_empty sampleConfig [jetA] [tau50; tau30] H).
Defined.

End DiJetExamples.

(** * Further properties of the timing producer *)

Section TimingFurther.

Import Timing.
Context {CaloJet : Type} {G : Geometry CaloJet}.

Local Notation "'acc0'" := (mkAcc 0 0 0%N).

(** Scanning a collection and scanning its qualifying hits alone lead to
    the same accumulators. *)
Lemma scan_qualifying (cfg : Config) (jet : CaloJet) (hits : list EcalRecHit)
    (a : Acc) :
  scan cfg jet (qualifying cfg jet hits) a = scan cfg jet hits a.
Proof.
  revert a. induction hits as [|h hits IH]; intros a; [reflexivity|].
  change (scan cfg jet (h :: hits) a)
    with (scan cfg jet hits (loop_body cfg jet a h)).
  unfold qualifying. simpl filter. fold (qualifying cfg jet hits).
  destruct (qualifies cfg jet h) eqn:Q.
  - change (scan cfg jet (h :: qualifying cfg jet hits) a)
      with (scan cfg jet (qualifying cfg jet hits) (loop_body cfg jet a h)).
    apply IH.
  - rewrite IH. f_equal. unfold loop_body.
    now rewrite skipped_qualifies, Q.
Qed.

Lemma scan_none (cfg : Config) (jet : CaloJet) (hits : list EcalRecHit)
    (a : Acc) :
  qualifying cfg jet hits = [] -> scan cfg jet hits a = a.
Proof. intros Q. rewrite <- scan_qualifying, Q. reflexivity. Qed.

Lemma normalise_acc0 : normalise acc0 = acc0.
Proof. reflexivity. Qed.

(** Dividing, multiplying back and dividing again emits what dividing once
    emits, whatever the sign of the energy sum. *)
Lemma emit_renormalise (a : Acc) :
  emit (normalise (rescale (normalise a))) = emit (normalise a).
Proof.
  destruct (Qcltb 0 (totalEmEnergyCell a)) eqn:E.
  - rewrite rescale_normalise; [reflexivity|].
    left. now apply Qcltb_lt.
  - destruct a as [w e n]; simpl in E.
    unfold rescale, normalise, emit.
    repeat (cbn [totalEmEnergyCell weightedTimeCell nCells]; rewrite E).
    reflexivity.
Qed.

(** The energy sum of a jet, in closed form. *)
Lemma perJet_energy (cfg : Config) (jet : CaloJet) (eb ee : list EcalRecHit) :
  jetEnergy (perJet cfg jet eb ee) =
  Qcsum (map weight (qualifying cfg jet (enabledHits cfg eb ee))).
Proof.
  unfold perJet, jetEnergy, emit, enabledHits; simpl.
  destruct (barrelJets cfg), (endcapJets cfg); simpl.
  - unfold jetTimeFromEcalCells.
    destruct (normalise_energy_cells
                (scan cfg jet ee (rescale (normalise (scan cfg jet eb acc0)))))
      as [-> _].
    rewrite scan_closed; simpl.
    + destruct (normalise_energy_cells (scan cfg jet eb acc0)) as [-> _].
      rewrite scan_closed by reflexivity. simpl.
      rewrite qualifying_app, map_app, Qcsum_app. ring.
    + destruct (normalise_energy_cells (scan cfg jet eb acc0)) as [_ ->].
      rewrite scan_closed by reflexivity. simpl.
      apply N.mod_lt. discriminate.
  - unfold jetTimeFromEcalCells.
    destruct (normalise_energy_cells (scan cfg jet eb acc0)) as [-> _].
    rewrite scan_closed by reflexivity. simpl.
    rewrite app_nil_r. ring.
  - rewrite rescale_acc0. unfold jetTimeFromEcalCells.
    destruct (normalise_energy_cells (scan cfg jet ee acc0)) as [-> _].
    rewrite scan_closed by reflexivity. simpl. ring.
  - reflexivity.
Qed.

Lemma perJet_time_sentinel (cfg : Config) (jet : CaloJet)
    (eb ee : list EcalRecHit) :
  jetEnergy (perJet cfg jet eb ee) <= 0 ->
  jetTime (perJet cfg jet eb ee) = QcZ (-50).
Proof.
  unfold perJet, jetEnergy, jetTime, emit; simpl.
  intros H. apply Qcltb_ge in H. now rewrite H.
Qed.

(** With no negative weight among the qualifying barrel cells, every
    setting of the region flags computes the single pass over the
    qualifying cells of the enabled regions. *)
Lemma perJet_singlePass (cfg : Config) (jet : CaloJet)
    (eb ee : list EcalRecHit) :
  (forall h, In h (enabledHits cfg eb ee) ->
             qualifies cfg jet h = true -> 0 <= weight h) ->
  perJet cfg jet eb ee =
  singlePass (qualifying cfg jet (enabledHits cfg eb ee)).
Proof.
  unfold perJet, enabledHits.
  destruct (barrelJets cfg), (endcapJets cfg); simpl; intros Hw.
  - assert (Hb : forall h, In h eb -> qualifies cfg jet h = true ->
                           0 <= weight h).
    { intros h Hh. apply Hw. apply in_or_app. now left. }
    unfold jetTimeFromEcalCells at 1.
    unfold jetTimeFromEcalCells at 1.
    rewrite (rescale_normalise _ (barrel_state_restorable cfg jet eb Hb)).
    rewrite <- scan_app. apply single_scan_direct.
  - rewrite app_nil_r. apply single_scan_direct.
  - rewrite rescale_acc0. apply single_scan_direct.
  - reflexivity.
Qed.

(** A scan of cells that all qualify adds every one of them. *)
Lemma scan_all_qualify (cfg : Config) (jet : CaloJet) (cells : list EcalRecHit)
    (a : Acc) :
  Forall (fun h => qualifies cfg jet h = true) cells ->
  scan cfg jet cells a = fold_left accumulate cells a.
Proof.
  intros H. revert a. induction H as [|h cells Q _ IH]; intros a; trivial.
  change (scan cfg jet (h :: cells) a)
    with (scan cfg jet cells (loop_body cfg jet a h)).
  unfold loop_body. rewrite skipped_qualifies, Q. simpl. apply IH.
Qed.

Lemma qualifying_all (cfg : Config) (jet : CaloJet) (hits : list EcalRecHit) :
  Forall (fun h => qualifies cfg jet h = true) (qualifying cfg jet hits).
Proof.
  apply Forall_forall. intros h H. unfold qualifying in H.
  now apply filter_In in H.
Qed.

(** The per-jet result as a function of the qualifying cells of the
    enabled barrel and of the enabled endcap. *)
Lemma perJet_factor (cfg : Config) (jet : CaloJet) (eb ee : list EcalRecHit) :
  perJet cfg jet eb ee =
  emit (normalise
          (fold_left accumulate
             (qualifying cfg jet (if endcapJets cfg then ee else []))
             (rescale
                (normalise
                   (fold_left accumulate
                      (qualifying cfg jet (if barrelJets cfg then eb else []))
                      acc0))))).
Proof.
  rewrite <- (scan_all_qualify cfg jet
                (qualifying cfg jet (if barrelJets cfg then eb else [])) acc0
                (qualifying_all _ _ _)).
  rewrite <- (scan_all_qualify cfg jet
                (qualifying cfg jet (if endcapJets cfg then ee else [])) _
                (qualifying_all _ _ _)).
  rewrite !scan_qualifying.
  unfold perJet, jetTimeFromEcalCells.
  destruct (barrelJets cfg), (endcapJets cfg); trivial.
  symmetry. apply emit_renormalise.
Qed.

(** X2.  With both region flags off, as in the defaults of
    [fillDescriptions], no hit is read: every jet gets the time -50, the
    energy sum 0 and the count 0, whatever the hit collections hold. *)
Theorem no_region_enabled_gives_sentinels
    (cfg : Config) (jets : list CaloJet) (eb ee : list EcalRecHit) :
  barrelJets cfg = false -> endcapJets cfg = false ->
  produce cfg jets eb ee =
  (map (fun _ => QcZ (-50)) jets, map (fun _ => 0) jets,
   map (fun _ => 0%N) jets).
Proof.
  intros Hb He. rewrite produce_perJet.
  assert (E : forall jet, perJet cfg jet eb ee = (QcZ (-50), 0, 0%N)).
  { intro jet. unfold perJet. now rewrite Hb, He. }
  rewrite (map_ext (fun jet => jetTime (perJet cfg jet eb ee))
                   (fun _ => QcZ (-50))) by (intro jet; now rewrite E).
  rewrite (map_ext (fun jet => jetEnergy (perJet cfg jet eb ee))
                   (fun _ => 0)) by (intro jet; now rewrite E).
  rewrite (map_ext (fun jet => jetCells (perJet cfg jet eb ee))
                   (fun _ => 0%N)) by (intro jet; now rewrite E).
  reflexivity.
Qed.

(** X3.  For every configuration and input, also where cells of negative
    weight qualify, the emitted energy sum is the sum of
    energy * sin(theta) over the qualifying cells of the enabled regions
    and the emitted count is their number (modulo 2^32); and whenever that
    energy sum is not positive the emitted time is -50. *)
Theorem energy_and_count_are_exact
    (cfg : Config) (jet : CaloJet) (eb ee : list EcalRecHit) :
  jetEnergy (perJet cfg jet eb ee)
  = Qcsum (map weight (qualifying cfg jet (enabledHits cfg eb ee))) /\
  jetCells (perJet cfg jet eb ee)
  = (N.of_nat (length (qualifying cfg jet (enabledHits cfg eb ee)))
     mod 2 ^ 32)%N /\
  (jetEnergy (perJet cfg jet eb ee) <= 0 ->
   jetTime (perJet cfg jet eb ee) = QcZ (-50)).
Proof.
  split; [apply perJet_energy|]. split; [|apply perJet_time_sentinel].
  rewrite perJet_cells. unfold enabledHits.
  now rewrite qualifying_app, length_app.
Qed.

Lemma qualifies_time (cfg : Config) (jet : CaloJet) (h : EcalRecHit) :
  qualifies cfg jet h = true -> Qcabs (time h) <= ecalCellTimeThresh cfg.
Proof.
  unfold qualifies. rewrite !andb_true_iff.
  intros [[_ T] _]. now apply Qcleb_le.
Qed.

(** A weighted sum of times of magnitude at most [T], with weights that
    are not negative, lies between [-T] and [T] times the sum of the
    weights. *)
Lemma weighted_sum_bounds (T : Qc) (cells : list EcalRecHit) :
  (forall h, In h cells -> 0 <= weight h /\ Qcabs (time h) <= T) ->
  - T * Qcsum (map weight cells) <= Qcsum (map timeWeight cells) /\
  Qcsum (map timeWeight cells) <= T * Qcsum (map weight cells).
Proof.
  induction cells as [|h cells IH]; intros H; simpl.
  - rewrite !Qcmult_0_r. split; apply Qcle_refl.
  - destruct (H h (or_introl eq_refl)) as [Hw Ht].
    apply Qcabs_Qcle_condition in Ht. destruct Ht as [Lo Hi].
    destruct IH as [IHlo IHhi]; [intros x Hx; apply H; now right|].
    rewrite timeWeight_weight, !Qcmult_plus_distr_r. split.
    + apply Qcplus_le_compat; trivial. now apply Qcmult_le_compat_r.
    + apply Qcplus_le_compat; trivial. now apply Qcmult_le_compat_r.
Qed.

(** X4.  When no qualifying cell of the enabled regions has a negative
    weight and the emitted energy sum is positive, the emitted time is at
    most [ecalCellTimeThresh] in magnitude. *)
Theorem emitted_time_within_time_threshold
    (cfg : Config) (jet : CaloJet) (eb ee : list EcalRecHit) :
  (forall h, In h (enabledHits cfg eb ee) ->
             qualifies cfg jet h = true -> 0 <= weight h) ->
  0 < jetEnergy (perJet cfg jet eb ee) ->
  Qcabs (jetTime (perJet cfg jet eb ee)) <= ecalCellTimeThresh cfg.
Proof.
  intros Hw. rewrite (perJet_singlePass cfg jet eb ee Hw).
  set (q := qualifying cfg jet (enabledHits cfg eb ee)).
  unfold singlePass, jetEnergy, jetTime; simpl. intros Hpos.
  pose proof Hpos as Hb. apply Qcltb_lt in Hb. rewrite Hb.
  destruct (weighted_sum_bounds (ecalCellTimeThresh cfg) q) as [Lo Hi].
  { intros h Hh. unfold q, qualifying in Hh. apply filter_In in Hh.
    destruct Hh as [Hin Q]. split; [now apply Hw|].
    now apply qualifies_time with jet. }
  assert (Hne : Qcsum (map weight q) <> 0).
  { intro Z. rewrite Z in Hpos. exact (Qclt_not_eq _ _ Hpos eq_refl). }
  assert (M : weightedMean q * Qcsum (map weight q)
              = Qcsum (map timeWeight q)).
  { unfold weightedMean. now field. }
  apply Qcabs_Qcle_condition. split.
  - apply Qcmult_lt_0_le_reg_r with (Qcsum (map weight q)); trivial.
    now rewrite M.
  - apply Qcmult_lt_0_le_reg_r with (Qcsum (map weight q)); trivial.
    now rewrite M.
Qed.

(** X5.  The per-jet result depends on the configuration and on the hit
    collections only through the qualifying cells of the enabled barrel
    and of the enabled endcap: two runs (with any two configurations)
    whose lists of such cells agree emit the same triple.  In particular
    hits that fail a predicate, and hits of a disabled region, never
    influence the result. *)
Theorem result_depends_on_qualifying_enabled_cells
    (cfg cfg' : Config) (jet : CaloJet) (eb ee eb' ee' : list EcalRecHit) :
  qualifying cfg jet (if barrelJets cfg then eb else [])
  = qualifying cfg' jet (if barrelJets cfg' then eb' else []) ->
  qualifying cfg jet (if endcapJets cfg then ee else [])
  = qualifying cfg' jet (if endcapJets cfg' then ee' else []) ->
  perJet cfg jet eb ee = perJet cfg' jet eb' ee'.
Proof.
  intros Hb He. rewrite (perJet_factor cfg), (perJet_factor cfg').
  now rewrite Hb, He.
Qed.

(** X6.  Enabling a region none of whose cells qualifies changes nothing:
    with the endcap (resp. barrel) hits all failing a predicate, the result
    with that region enabled is the result with it disabled, whatever the
    other region holds, cells of negative weight included. *)
Theorem enabling_region_without_qualifying_cell_changes_nothing
    (b e : bool) (thrE thrT thrTE r2 : Qc) (jet : CaloJet)
    (eb ee : list EcalRecHit) :
  (qualifying (mkConfig b true thrE thrT thrTE r2) jet ee = [] ->
   perJet (mkConfig b true thrE thrT thrTE r2) jet eb ee
   = perJet (mkConfig b false thrE thrT thrTE r2) jet eb ee) /\
  (qualifying (mkConfig true e thrE thrT thrTE r2) jet eb = [] ->
   perJet (mkConfig true e thrE thrT thrTE r2) jet eb ee
   = perJet (mkConfig false e thrE thrT thrTE r2) jet eb ee).
Proof.
  split; intros Q; rewrite !perJet_factor; simpl barrelJets;
    simpl endcapJets; cbv iota.
  - now rewrite Q.
  - now rewrite Q.
Qed.

Lemma filter_length_mono {A : Type} (f g : A -> bool) (l : list A) :
  (forall x, f x = true -> g x = true) ->
  (length (filter f l) <= length (filter g l))%nat.
Proof.
  intros H. induction l as [|x l IH]; simpl; trivial.
  destruct (f x) eqn:F.
  - rewrite (H x F). simpl. lia.
  - destruct (g x); simpl; lia.
Qed.

(** X7.  Loosening the thresholds never loses a cell: if the energy
    threshold is lowered and the time, time-uncertainty and matching-radius
    thresholds are raised (or kept), every cell that qualified still
    qualifies, so the qualifying cells of a collection are among the new
    ones and are not more numerous. *)
Theorem loosening_thresholds_keeps_cells
    (cfg cfg' : Config) (jet : CaloJet) (hits : list EcalRecHit) :
  ecalCellEnergyThresh cfg' <= ecalCellEnergyThresh cfg ->
  ecalCellTimeThresh cfg <= ecalCellTimeThresh cfg' ->
  ecalCellTimeErrorThresh cfg <= ecalCellTimeErrorThresh cfg' ->
  matchingRadius2 cfg <= matchingRadius2 cfg' ->
  (forall h, qualifies cfg jet h = true -> qualifies cfg' jet h = true) /\
  incl (qualifying cfg jet hits) (qualifying cfg' jet hits) /\
  (length (qualifying cfg jet hits) <= length (qualifying cfg' jet hits))%nat.
Proof.
  intros HE HT HTE HR.
  assert (M : forall h, qualifies cfg jet h = true ->
                        qualifies cfg' jet h = true).
  { intros h. unfold qualifies. rewrite !andb_true_iff, !Qcleb_le.
    intros [[[[F E] [P TE]] T] R].
    repeat split; trivial; eapply Qcle_trans; eauto. }
  split; [exact M|]. split.
  - intros h Hh. unfold qualifying in *. apply filter_In in Hh.
    apply filter_In. destruct Hh. auto.
  - now apply filter_length_mono.
Qed.

End TimingFurther.

(** * Further properties of the di-jet filter *)

(** Two strictly increasing lists with the same elements are equal. *)
Lemma sorted_lt_ext (l1 l2 : list nat) :
  StronglySorted lt l1 -> StronglySorted lt l2 ->
  (forall x, In x l1 <-> In x l2) -> l1 = l2.
Proof.
  intros S1. revert l2.
  induction S1 as [|a l1 S1 IH F1]; intros l2 S2 H.
  - destruct l2 as [|b l2]; trivial.
    destruct (proj2 (H b) (or_introl eq_refl)).
  - destruct S2 as [|b l2 S2 F2].
    + destruct (proj1 (H a) (or_introl eq_refl)).
    + rewrite Forall_forall in F1, F2.
      assert (E : a = b).
      { destruct (proj1 (H a) (or_introl eq_refl)) as [E|Ha]; [auto|].
        destruct (proj2 (H b) (or_introl eq_refl)) as [E|Hb]; [auto|].
        specialize (F1 _ Hb). specialize (F2 _ Ha). lia. }
      subst b. f_equal. apply IH; trivial.
      intros x. split; intros Hx.
      * destruct (proj1 (H x) (or_intror Hx)) as [E|Hx']; trivial.
        specialize (F1 _ Hx). lia.
      * destruct (proj2 (H x) (or_intror Hx)) as [E|Hx']; trivial.
        specialize (F2 _ Hx). lia.
Qed.

(** Two positions of a list, the first before the second, cut the list in
    three. *)
Lemma nth_error_pair_split {A : Type} (l : list A) (k1 k2 : nat) (x y : A) :
  (k1 < k2)%nat -> nth_error l k1 = Some x -> nth_error l k2 = Some y ->
  exists l1 l2 l3, l = l1 ++ x :: l2 ++ y :: l3.
Proof.
  intros Hk H1 H2.
  apply nth_error_split in H1. destruct H1 as (l1 & r & -> & L1).
  rewrite nth_error_app2 in H2 by lia. subst k1.
  destruct (k2 - length l1)%nat as [|k] eqn:E; [lia|]. simpl in H2.
  apply nth_error_split in H2. destruct H2 as (l2 & l3 & -> & _).
  now exists l1, l2, l3.
Qed.

Lemma pair_split_nth_error {A : Type} (l1 l2 l3 : list A) (x y : A) :
  nth_error (l1 ++ x :: l2 ++ y :: l3) (length l1) = Some x /\
  nth_error (l1 ++ x :: l2 ++ y :: l3) (length l1 + S (length l2)) = Some y.
Proof.
  split.
  - rewrite nth_error_app2 by lia. now rewrite Nat.sub_diag.
  - rewrite nth_error_app2 by lia.
    replace (length l1 + S (length l2) - length l1)%nat
      with (S (length l2)) by lia.
    simpl. rewrite nth_error_app2 by lia. now rewrite Nat.sub_diag.
Qed.

(** A symmetric property of two elements standing at different places of a
    list survives any permutation of the list. *)
Lemma pair_split_perm {A : Type} (S : A -> A -> Prop) (l l' : list A) :
  (forall a b, S a b -> S b a) ->
  Permutation l l' ->
  (exists l1 a l2 b l3, l = l1 ++ a :: l2 ++ b :: l3 /\ S a b) ->
  exists l1 a l2 b l3, l' = l1 ++ a :: l2 ++ b :: l3 /\ S a b.
Proof.
  intros Sym Hp (l1 & a & l2 & b & l3 & -> & H).
  assert (In1 : In a l').
  { apply (Permutation_in _ Hp). apply in_or_app. right. now left. }
  apply in_split in In1. destruct In1 as (m1 & m2 & ->).
  apply Permutation_app_inv in Hp.
  assert (In2 : In b (m1 ++ m2)).
  { apply (Permutation_in _ Hp). apply in_or_app. right.
    apply in_or_app. right. now left. }
  apply in_app_or in In2. destruct In2 as [In2|In2];
    apply in_split in In2; destruct In2 as (n1 & n2 & ->).
  - exists n1, b, n2, a, m2. rewrite <- app_assoc. simpl. auto.
  - exists m1, a, n1, b, n2. auto.
Qed.

Section DiJetFurther.

Import DiJet.
Context {K : Kinematics}.

(** The set [indices], hence the output, is determined by which pairs of
    positions qualify. *)
Lemma indices_ext (cfg cfg' : Config) (pfJets : list PFJet)
    (taus taus' : list PFTau) :
  (forall a b, qualifyingJetPair cfg pfJets taus a b <->
               qualifyingJetPair cfg' pfJets taus' a b) ->
  indices cfg pfJets taus = indices cfg' pfJets taus'.
Proof.
  intros H. apply sorted_lt_ext; try apply indices_sorted.
  intros i. rewrite !indices_In. split; intros (a & b & Q & Hi);
    exists a, b; split; trivial; now apply H.
Qed.

Lemma produce_ext (cfg cfg' : Config) (pfJets : list PFJet)
    (taus taus' : list PFTau) :
  (forall a b, qualifyingJetPair cfg pfJets taus a b <->
               qualifyingJetPair cfg' pfJets taus' a b) ->
  produce cfg pfJets taus = produce cfg' pfJets taus'.
Proof.
  intros H. unfold produce, cleanedPFJets.
  now rewrite (indices_ext cfg cfg' pfJets taus taus' H).
Qed.

(** A looser configuration keeps every qualifying pair. *)
Lemma qualifyingJetPair_mono (cfg cfg' : Config) (pfJets : list PFJet)
    (taus : list PFTau) (a b : nat) :
  extraTauPtCut cfg <= extraTauPtCut cfg' ->
  mjjMin cfg <= mjjMin cfg' ->
  matchingR2 cfg <= matchingR2 cfg' ->
  qualifyingJetPair cfg' pfJets taus a b ->
  qualifyingJetPair cfg pfJets taus a b.
Proof.
  intros Hc Hm Hr (Hlt & j1 & j2 & Ha & Hb & HM & Htau).
  split; trivial. exists j1, j2.
  split; trivial. split; trivial.
  split; [now apply Qcle_trans with (mjjMin cfg')|].
  destruct Htau as (k1 & k2 & t1 & t2 & Hk & H1 & H2 & [A1 A1'] & [A2 A2'] & P).
  exists k1, k2, t1, t2.
  split; trivial. split; trivial. split; trivial.
  split; [split; now apply Qcle_trans with (matchingR2 cfg')|].
  split; [split; now apply Qcle_trans with (matchingR2 cfg')|].
  intros [P1 P2]. apply P.
  split; eapply Qclt_le_trans; eauto.
Qed.

Lemma indices_length (cfg : Config) (pfJets : list PFJet) (taus : list PFTau) :
  length (produce cfg pfJets taus) = length (indices cfg pfJets taus).
Proof.
  unfold produce. rewrite (Permutation_length (std_sort_perm _ _)).
  pose proof (cleanedPFJets_lookup cfg pfJets taus) as F.
  induction F; simpl; auto.
Qed.

(** X8.  Jets are retained in pairs: every retained position has a
    different retained position with which it forms a qualifying pair, so
    the output never consists of exactly one jet. *)
Theorem retained_jets_come_in_pairs
    (cfg : Config) (pfJets : list PFJet) (taus : list PFTau) :
  (forall i, In i (indices cfg pfJets taus) ->
     exists j, In j (indices cfg pfJets taus) /\ j <> i /\
               (qualifyingJetPair cfg pfJets taus i j \/
                qualifyingJetPair cfg pfJets taus j i)) /\
  length (produce cfg pfJets taus) <> 1%nat.
Proof.
  assert (P : forall i, In i (indices cfg pfJets taus) ->
     exists j, In j (indices cfg pfJets taus) /\ j <> i /\
               (qualifyingJetPair cfg pfJets taus i j \/
                qualifyingJetPair cfg pfJets taus j i)).
  { intros i Hi. apply indices_In in Hi.
    destruct Hi as (a & b & Q & [->| ->]).
    - exists b. split; [apply indices_In; eauto|].
      destruct Q as [Hlt Q]. split; [lia|]. left. now split.
    - exists a. split; [apply indices_In; eauto|].
      destruct Q as [Hlt Q]. split; [lia|]. right. now split. }
  split; trivial.
  rewrite indices_length. intros L.
  destruct (indices cfg pfJets taus) as [|i [|k l]] eqn:E; try discriminate.
  destruct (P i (or_introl eq_refl)) as (j & [->|[]] & Hne & _).
  now apply Hne.
Qed.

(** X9.  The filter only selects: every jet of the output is a jet of the
    input, and the output is not longer than the input. *)
Theorem output_is_drawn_from_input
    (cfg : Config) (pfJets : list PFJet) (taus : list PFTau) :
  incl (produce cfg pfJets taus) pfJets /\
  (length (produce cfg pfJets taus) <= length pfJets)%nat.
Proof.
  split.
  - intros jet H. apply produce_In in H. destruct H as (i & _ & H).
    now apply nth_error_In with i.
  - rewrite indices_length.
    apply Nat.le_trans with (length (seq 0 (length pfJets)));
      [|now rewrite length_seq].
    apply NoDup_incl_length.
    + apply sorted_lt_NoDup, indices_sorted.
    + intros i Hi. apply in_seq. apply indices_in_range in Hi. lia.
Qed.

(** X10.  [dRmin] enters only through its square (line 53): two values of
    the parameter with the same square, such as d and -d, give the same
    output. *)
Theorem dRmin_enters_through_its_square
    (cut m d d' : Qc) (pfJets : list PFJet) (taus : list PFTau) :
  d * d = d' * d' ->
  produce (mkConfig cut m d) pfJets taus
  = produce (mkConfig cut m d') pfJets taus.
Proof.
  intros H. apply produce_ext. intros a b.
  split; apply qualifyingJetPair_mono; simpl; unfold matchingR2; simpl;
    try apply Qcle_refl; rewrite H; apply Qcle_refl.
Qed.

(** X11.  Loosening the configuration can only keep or add jets: with a
    smaller or equal leading-pt cut, mass threshold and squared matching
    radius, every retained position stays retained and every jet of the
    output stays in the output. *)
Theorem loosening_cuts_keeps_jets
    (cfg cfg' : Config) (pfJets : list PFJet) (taus : list PFTau) :
  extraTauPtCut cfg <= extraTauPtCut cfg' ->
  mjjMin cfg <= mjjMin cfg' ->
  matchingR2 cfg <= matchingR2 cfg' ->
  incl (indices cfg' pfJets taus) (indices cfg pfJets taus) /\
  incl (produce cfg' pfJets taus) (produce cfg pfJets taus).
Proof.
  intros Hc Hm Hr.
  assert (I : incl (indices cfg' pfJets taus) (indices cfg pfJets taus)).
  { intros i Hi. apply indices_In in Hi. apply indices_In.
    destruct Hi as (a & b & Q & Hi). exists a, b. split; trivial.
    now apply qualifyingJetPair_mono with cfg'. }
  split; trivial.
  intros jet Hj. apply produce_In in Hj. apply produce_In.
  destruct Hj as (i & Hi & Hl). exists i. auto.
Qed.

(** A qualifying tau pair, told by where the two taus stand in the
    sequence rather than by their positions. *)
Lemma qualifyingTauPair_split (cfg : Config) (taus : list PFTau)
    (j1 j2 : PFJet) :
  qualifyingTauPair cfg taus j1 j2 <->
  exists l1 t1 l2 t2 l3,
    taus = l1 ++ t1 :: l2 ++ t2 :: l3 /\
    awayFromJets cfg j1 j2 t1 /\ awayFromJets cfg j1 j2 t2 /\
    ~ (tauPt t1 < extraTauPtCut cfg /\ tauPt t2 < extraTauPtCut cfg).
Proof.
  split.
  - intros (k1 & k2 & t1 & t2 & Hk & H1 & H2 & A1 & A2 & P).
    apply nth_error_split in H1. destruct H1 as (l1 & r & -> & L1).
    rewrite nth_error_app2 in H2 by lia. subst k1.
    destruct (k2 - length l1)%nat as [|k] eqn:E; [lia|]. simpl in H2.
    apply nth_error_split in H2. destruct H2 as (l2 & l3 & -> & _).
    exists l1, t1, l2, t2, l3. auto.
  - intros (l1 & t1 & l2 & t2 & l3 & -> & A1 & A2 & P).
    exists (length l1), (length l1 + S (length l2))%nat, t1, t2.
    split; [lia|]. split; [|split; [|auto]].
    + rewrite nth_error_app2 by lia. now rewrite Nat.sub_diag.
    + rewrite nth_error_app2 by lia.
      replace (length l1 + S (length l2) - length l1)%nat
        with (S (length l2)) by lia.
      simpl. rewrite nth_error_app2 by lia. now rewrite Nat.sub_diag.
Qed.

Lemma qualifyingTauPair_perm (cfg : Config) (taus taus' : list PFTau)
    (j1 j2 : PFJet) :
  Permutation taus taus' ->
  qualifyingTauPair cfg taus j1 j2 -> qualifyingTauPair cfg taus' j1 j2.
Proof.
  intros Hp. rewrite !qualifyingTauPair_split.
  intros (l1 & t1 & l2 & t2 & l3 & -> & A1 & A2 & P).
  assert (In1 : In t1 taus').
  { apply (Permutation_in _ Hp). apply in_or_app. right. now left. }
  apply in_split in In1. destruct In1 as (m1 & m2 & ->).
  apply Permutation_app_inv in Hp.
  assert (In2 : In t2 (m1 ++ m2)).
  { apply (Permutation_in _ Hp). apply in_or_app. right.
    apply in_or_app. right. now left. }
  apply in_app_or in In2. destruct In2 as [In2|In2];
    apply in_split in In2; destruct In2 as (n1 & n2 & ->).
  - exists n1, t2, n2, t1, m2. rewrite <- app_assoc. simpl.
    split; trivial. split; trivial. split; trivial.
    intros [Q2 Q1]. apply P. now split.
  - exists m1, t1, n1, t2, n2. auto.
Qed.

Lemma qualifyingTauPair_more (cfg : Config) (taus more : list PFTau)
    (j1 j2 : PFJet) :
  qualifyingTauPair cfg taus j1 j2 ->
  qualifyingTauPair cfg (taus ++ more) j1 j2.
Proof.
  rewrite !qualifyingTauPair_split.
  intros (l1 & t1 & l2 & t2 & l3 & -> & H).
  exists l1, t1, l2, t2, (l3 ++ more). split; trivial.
  rewrite <- app_assoc. simpl. rewrite <- app_assoc. reflexivity.
Qed.

Lemma indices_empty (cfg : Config) (pfJets : list PFJet) (taus : list PFTau) :
  (forall a b, ~ qualifyingJetPair cfg pfJets taus a b) ->
  produce cfg pfJets taus = [].
Proof.
  intros H. unfold produce, cleanedPFJets.
  destruct (indices cfg pfJets taus) as [|i l] eqn:E; trivial.
  assert (Hi : In i (indices cfg pfJets taus)) by (rewrite E; now left).
  apply indices_In in Hi. destruct Hi as (a & b & Q & _).
  destruct (H a b Q).
Qed.

(** X12.  The output does not depend on the order of the tau candidates:
    a permutation of the tau sequence yields the very same jet
    collection. *)
Theorem tau_order_is_irrelevant
    (cfg : Config) (pfJets : list PFJet) (taus taus' : list PFTau) :
  Permutation taus taus' ->
  produce cfg pfJets taus = produce cfg pfJets taus'.
Proof.
  intros Hp. apply produce_ext. intros a b. unfold qualifyingJetPair.
  split; intros (Hlt & j1 & j2 & Ha & Hb & HM & Q);
    (split; [exact Hlt|]); exists j1, j2;
    (split; [exact Ha|split; [exact Hb|split; [exact HM|]]]).
  - now apply qualifyingTauPair_perm with taus.
  - apply qualifyingTauPair_perm with taus'; trivial.
    now apply Permutation_sym.
Qed.

(** X13.  More tau candidates can only keep or add jets: every position
    retained with a tau sequence is retained with any extension of it, and
    so is every jet of the output. *)
Theorem more_taus_keep_jets
    (cfg : Config) (pfJets : list PFJet) (taus more : list PFTau) :
  incl (indices cfg pfJets taus) (indices cfg pfJets (taus ++ more)) /\
  incl (produce cfg pfJets taus) (produce cfg pfJets (taus ++ more)).
Proof.
  assert (I : incl (indices cfg pfJets taus)
                   (indices cfg pfJets (taus ++ more))).
  { intros i Hi. apply indices_In in Hi. apply indices_In.
    destruct Hi as (a & b & (Hlt & j1 & j2 & Ha & Hb & HM & Q) & Hi).
    exists a, b. split; trivial. split; trivial.
    exists j1, j2. auto using qualifyingTauPair_more. }
  split; trivial.
  intros jet Hj. apply produce_In in Hj. apply produce_In.
  destruct Hj as (i & Hi & Hl). exists i. auto.
Qed.

(** X14.  Two ways to an empty output: when every tau candidate is below
    the leading-pt cut, and when every pair of input jets (the jets at two
    positions of the collection, the earlier one first, as the loops of
    lines 70-71 take them) has an invariant mass below [mjjMin], no jet is
    emitted. *)
Theorem cuts_failing_everywhere_give_empty
    (cfg : Config) (pfJets : list PFJet) (taus : list PFTau) :
  ((forall t, In t taus -> tauPt t < extraTauPtCut cfg) ->
   produce cfg pfJets taus = []) /\
  ((forall a b j1 j2,
      (a < b)%nat ->
      nth_error pfJets a = Some j1 -> nth_error pfJets b = Some j2 ->
      sumM (jetP4 j1) (jetP4 j2) < mjjMin cfg) ->
   produce cfg pfJets taus = []).
Proof.
  split; intros H; apply indices_empty;
    intros a b (Hlt & j1 & j2 & Ha & Hb & HM & Q).
  - destruct Q as (k1 & k2 & t1 & t2 & _ & H1 & H2 & _ & _ & P).
    apply P. split; apply H; eapply nth_error_In; eauto.
  - exact (Qcle_not_lt _ _ HM (H a b j1 j2 Hlt Ha Hb)).
Qed.

Lemma awayFromJets_sym (cfg : Config) (j1 j2 : PFJet) (t : PFTau) :
  awayFromJets cfg j1 j2 t -> awayFromJets cfg j2 j1 t.
Proof. unfold awayFromJets. intuition. Qed.

Lemma qualifyingTauPair_sym (cfg : Config) (taus : list PFTau)
    (j1 j2 : PFJet) :
  qualifyingTauPair cfg taus j1 j2 -> qualifyingTauPair cfg taus j2 j1.
Proof.
  intros (k1 & k2 & t1 & t2 & Hk & H1 & H2 & A1 & A2 & P).
  exists k1, k2, t1, t2. auto 10 using awayFromJets_sym.
Qed.

(** The jets of the output, told by where the two jets of a qualifying
    pair stand in the input. *)
Lemma produce_In_split (cfg : Config) (pfJets : list PFJet)
    (taus : list PFTau) (jet : PFJet) :
  In jet (produce cfg pfJets taus) <->
  exists l1 a l2 b l3,
    pfJets = l1 ++ a :: l2 ++ b :: l3 /\
    ((jet = a \/ jet = b) /\
     mjjMin cfg <= sumM (jetP4 a) (jetP4 b) /\
     qualifyingTauPair cfg taus a b).
Proof.
  rewrite produce_In. split.
  - intros (i & Hi & Hj). apply indices_In in Hi.
    destruct Hi as (a & b & (Hlt & j1 & j2 & Ha & Hb & HM & Q) & Hi).
    destruct (nth_error_pair_split pfJets a b j1 j2 Hlt Ha Hb)
      as (l1 & l2 & l3 & E).
    exists l1, j1, l2, j2, l3. split; trivial. split; [|auto].
    destruct Hi as [->| ->]; [left|right]; congruence.
  - intros (l1 & a & l2 & b & l3 & -> & Hj & HM & Q).
    destruct (pair_split_nth_error l1 l2 l3 a b) as [Na Nb].
    assert (QP : qualifyingJetPair cfg (l1 ++ a :: l2 ++ b :: l3) taus
                   (length l1) (length l1 + S (length l2))).
    { split; [lia|]. exists a, b. auto. }
    destruct Hj as [->| ->].
    + exists (length l1). split; trivial. apply indices_In. eauto.
    + exists (length l1 + S (length l2))%nat. split; trivial.
      apply indices_In. eauto.
Qed.

(** X15.  When the invariant mass of a pair does not depend on the order
    of its two jets, the set of jets emitted does not depend on the order
    of the input jets: after any permutation of the input the same jets
    are in the output. *)
Theorem jet_order_does_not_change_retained_set
    (cfg : Config) (pfJets pfJets' : list PFJet) (taus : list PFTau) :
  (forall a b, sumM a b = sumM b a) ->
  Permutation pfJets pfJets' ->
  forall jet, In jet (produce cfg pfJets taus) <->
              In jet (produce cfg pfJets' taus).
Proof.
  intros Sym Hp jet. rewrite !produce_In_split.
  assert (S : forall a b : PFJet,
             (jet = a \/ jet = b) /\
             mjjMin cfg <= sumM (jetP4 a) (jetP4 b) /\
             qualifyingTauPair cfg taus a b ->
             (jet = b \/ jet = a) /\
             mjjMin cfg <= sumM (jetP4 b) (jetP4 a) /\
             qualifyingTauPair cfg taus b a).
  { intros a b (Hj & HM & Q). rewrite (Sym (jetP4 b) (jetP4 a)).
    split; [tauto|]. split; trivial. now apply qualifyingTauPair_sym. }
  split; apply pair_split_perm; trivial. now apply Permutation_sym.
Qed.

End DiJetFurther.

(** * Further worked examples *)

Section TimingFurtherExamples.

Import Timing.

(** The defaults of [fillDescriptions], two jets, one hit per region. *)
Lemma no_region_enabled_witness :
  barrelJets fillDescriptions = false /\ endcapJets fillDescriptions = false /\
  produce fillDescriptions [tt; tt] [hitB (QcZ 2) 1] [hitE (QcZ 5) (QcZ 3)]
  = (map (fun _ => QcZ (-50)) [tt; tt], map (fun _ => 0) [tt; tt],
     map (fun _ => 0%N) [tt; tt]).
Proof.
  split; [reflexivity|]. split; [reflexivity|].
  exact (no_region_enabled_gives_sentinels fillDescriptions [tt; tt]
           [hitB (QcZ 2) 1] [hitE (QcZ 5) (QcZ 3)] eq_refl eq_refl).
Defined.

(** Both regions, default thresholds, hits at times 1 and 3. *)
Lemma emitted_time_within_time_threshold_witness :
  (forall h, In h (enabledHits defaultConfig
                     [hitB (QcZ 2) 1] [hitE (QcZ 5) (QcZ 3)]) ->
             qualifies defaultConfig tt h = true -> 0 <= weight h) /\
  0 < jetEnergy (perJet defaultConfig tt
                   [hitB (QcZ 2) 1] [hitE (QcZ 5) (QcZ 3)]) /\
  Qcabs (jetTime (perJet defaultConfig tt
                    [hitB (QcZ 2) 1] [hitE (QcZ 5) (QcZ 3)]))
  <= ecalCellTimeThresh defaultConfig.
Proof.
  assert (W : forall h, In h (enabledHits defaultConfig
                                [hitB (QcZ 2) 1] [hitE (QcZ 5) (QcZ 3)]) ->
                        qualifies defaultConfig tt h = true -> 0 <= weight h).
  { intros h [<-|[<-|[]]] _; qc_order. }
  assert (P : 0 < jetEnergy (perJet defaultConfig tt
                               [hitB (QcZ 2) 1] [hitE (QcZ 5) (QcZ 3)]))
    by qc_order.
  split; [exact W|]. split; [exact P|].
  exact (emitted_time_within_time_threshold defaultConfig tt
           [hitB (QcZ 2) 1] [hitE (QcZ 5) (QcZ 3)] W P).
Defined.

(** Barrel only: a rejected barrel hit and the hits of the disabled endcap
    can be dropped. *)
Lemma result_depends_on_qualifying_enabled_cells_witness :
  qualifying barrelConfig tt
    (if barrelJets barrelConfig
     then [hitB (QcZ 2) 1; hitB (Qcfrac 1 10) 1] else [])
  = qualifying barrelConfig tt
      (if barrelJets barrelConfig then [hitB (QcZ 2) 1] else []) /\
  qualifying barrelConfig tt
    (if endcapJets barrelConfig then [hitE (QcZ 5) (QcZ 3)] else [])
  = qualifying barrelConfig tt (if endcapJets barrelConfig then [] else []) /\
  perJet barrelConfig tt [hitB (QcZ 2) 1; hitB (Qcfrac 1 10) 1]
         [hitE (QcZ 5) (QcZ 3)]
  = perJet barrelConfig tt [hitB (QcZ 2) 1] [].
Proof.
  split; [reflexivity|]. split; [reflexivity|].
  exact (result_depends_on_qualifying_enabled_cells barrelConfig barrelConfig
           tt [hitB (QcZ 2) 1; hitB (Qcfrac 1 10) 1] [hitE (QcZ 5) (QcZ 3)]
           [hitB (QcZ 2) 1] [] eq_refl eq_refl).
Defined.

(** Default thresholds.  First two qualifying barrel hits (sums 31 and 7)
    and an endcap hit below the energy threshold: enabling the endcap
    keeps the barrel result, two cells counted.  Then a barrel hit below
    the energy threshold and a qualifying endcap hit: enabling the barrel
    keeps the endcap result, one cell counted. *)
Lemma enabling_region_without_qualifying_cell_witness :
  (qualifying defaultConfig tt [hitE (Qcfrac 1 10) 1] = [] /\
   jetCells (perJet barrelConfig tt
               [hitB (QcZ 3) (QcZ 5); hitB (QcZ 4) (QcZ 4)]
               [hitE (Qcfrac 1 10) 1]) = 2%N /\
   perJet defaultConfig tt [hitB (QcZ 3) (QcZ 5); hitB (QcZ 4) (QcZ 4)]
          [hitE (Qcfrac 1 10) 1]
   = perJet barrelConfig tt [hitB (QcZ 3) (QcZ 5); hitB (QcZ 4) (QcZ 4)]
            [hitE (Qcfrac 1 10) 1]) /\
  (qualifying defaultConfig tt [hitB (Qcfrac 1 10) 1] = [] /\
   jetCells (perJet endcapConfig tt
               [hitB (Qcfrac 1 10) 1] [hitE (QcZ 5) (QcZ 3)]) = 1%N /\
   perJet defaultConfig tt [hitB (Qcfrac 1 10) 1] [hitE (QcZ 5) (QcZ 3)]
   = perJet endcapConfig tt [hitB (Qcfrac 1 10) 1] [hitE (QcZ 5) (QcZ 3)]).
Proof.
  split; (split; [reflexivity|split; [reflexivity|]]).
  - exact (proj1 (enabling_region_without_qualifying_cell_changes_nothing
                    true true (Qcfrac 1 2) (Qcfrac 25 2) (QcZ 100)
                    (Qcfrac 16 100) tt
                    [hitB (QcZ 3) (QcZ 5); hitB (QcZ 4) (QcZ 4)]
                    [hitE (Qcfrac 1 10) 1]) eq_refl).
  - exact (proj2 (enabling_region_without_qualifying_cell_changes_nothing
                    true true (Qcfrac 1 2) (Qcfrac 25 2) (QcZ 100)
                    (Qcfrac 16 100) tt
                    [hitB (Qcfrac 1 10) 1] [hitE (QcZ 5) (QcZ 3)]) eq_refl).
Defined.

(** From the default thresholds to an energy threshold of -1. *)
Lemma loosening_thresholds_witness :
  ecalCellEnergyThresh lowThreshConfig <= ecalCellEnergyThresh defaultConfig /\
  ecalCellTimeThresh defaultConfig <= ecalCellTimeThresh lowThreshConfig /\
  ecalCellTimeErrorThresh defaultConfig
  <= ecalCellTimeErrorThresh lowThreshConfig /\
  matchingRadius2 defaultConfig <= matchingRadius2 lowThreshConfig /\
  ((forall h, qualifies defaultConfig tt h = true ->
              qualifies lowThreshConfig tt h = true) /\
   incl (qualifying defaultConfig tt [hitB (Qcfrac (-1) 2) 1; hitB (QcZ 2) 1])
        (qualifying lowThreshConfig tt [hitB (Qcfrac (-1) 2) 1; hitB (QcZ 2) 1])
   /\
   (length (qualifying defaultConfig tt
              [hitB (Qcfrac (-1) 2) 1; hitB (QcZ 2) 1])
    <= length (qualifying lowThreshConfig tt
                 [hitB (Qcfrac (-1) 2) 1; hitB (QcZ 2) 1]))%nat).
Proof.
  assert (H1 : ecalCellEnergyThresh lowThreshConfig
               <= ecalCellEnergyThresh defaultConfig) by qc_order.
  assert (H2 : ecalCellTimeThresh defaultConfig
               <= ecalCellTimeThresh lowThreshConfig) by qc_order.
  assert (H3 : ecalCellTimeErrorThresh defaultConfig
               <= ecalCellTimeErrorThresh lowThreshConfig) by qc_order.
  assert (H4 : matchingRadius2 defaultConfig
               <= matchingRadius2 lowThreshConfig) by qc_order.
  split; [exact H1|]. split; [exact H2|]. split; [exact H3|].
  split; [exact H4|].
  exact (loosening_thresholds_keeps_cells defaultConfig lowThreshConfig tt
           [hitB (Qcfrac (-1) 2) 1; hitB (QcZ 2) 1] H1 H2 H3 H4).
Defined.

End TimingFurtherExamples.

Section DiJetFurtherExamples.

Import DiJet.

(** dRmin = 1/2 and dRmin = -1/2. *)
Lemma dRmin_square_witness :
  Qcfrac 1 2 * Qcfrac 1 2 = Qcfrac (-1) 2 * Qcfrac (-1) 2 /\
  produce (mkConfig (QcZ 45) (QcZ 500) (Qcfrac 1 2))
    [jetC; jetA; jetB] [tau50; tau30]
  = produce (mkConfig (QcZ 45) (QcZ 500) (Qcfrac (-1) 2))
      [jetC; jetA; jetB] [tau50; tau30].
Proof.
  assert (H : Qcfrac 1 2 * Qcfrac 1 2 = Qcfrac (-1) 2 * Qcfrac (-1) 2)
    by qc_eq.
  split; [exact H|].
  exact (dRmin_enters_through_its_square (K := toyKinematics) (QcZ 45) (QcZ 500) (Qcfrac 1 2)
           (Qcfrac (-1) 2) [jetC; jetA; jetB] [tau50; tau30] H).
Defined.

(** From the sample configuration to cuts 40, 400 and dRmin 1/4. *)
Lemma loosening_cuts_witness :
  extraTauPtCut (mkConfig (QcZ 40) (QcZ 400) (Qcfrac 1 4))
  <= extraTauPtCut sampleConfig /\
  mjjMin (mkConfig (QcZ 40) (QcZ 400) (Qcfrac 1 4)) <= mjjMin sampleConfig /\
  matchingR2 (mkConfig (QcZ 40) (QcZ 400) (Qcfrac 1 4))
  <= matchingR2 sampleConfig /\
  incl (indices sampleConfig [jetC; jetA; jetB] [tau50; tau30])
       (indices (mkConfig (QcZ 40) (QcZ 400) (Qcfrac 1 4))
          [jetC; jetA; jetB] [tau50; tau30]) /\
  incl (produce sampleConfig [jetC; jetA; jetB] [tau50; tau30])
       (produce (mkConfig (QcZ 40) (QcZ 400) (Qcfrac 1 4))
          [jetC; jetA; jetB] [tau50; tau30]).
Proof.
  assert (H1 : extraTauPtCut (mkConfig (QcZ 40) (QcZ 400) (Qcfrac 1 4))
               <= extraTauPtCut sampleConfig) by qc_order.
  assert (H2 : mjjMin (mkConfig (QcZ 40) (QcZ 400) (Qcfrac 1 4))
               <= mjjMin sampleConfig) by qc_order.
  assert (H3 : matchingR2 (mkConfig (QcZ 40) (QcZ 400) (Qcfrac 1 4))
               <= matchingR2 sampleConfig) by qc_order.
  split; [exact H1|]. split; [exact H2|]. split; [exact H3|].
  exact (loosening_cuts_keeps_jets (K := toyKinematics)
           (mkConfig (QcZ 40) (QcZ 400) (Qcfrac 1 4)) sampleConfig
           [jetC; jetA; jetB] [tau50; tau30] H1 H2 H3).
Defined.

(** The two taus of the sample scenario, swapped. *)
Lemma tau_order_witness :
  Permutation [tau50; tau30] [tau30; tau50] /\
  produce sampleConfig [jetC; jetA; jetB] [tau50; tau30]
  = produce sampleConfig [jetC; jetA; jetB] [tau30; tau50].
Proof.
  split; [apply perm_swap|].
  exact (tau_order_is_irrelevant (K := toyKinematics) sampleConfig [jetC; jetA; jetB]
           [tau50; tau30] [tau30; tau50] (perm_swap _ _ _)).
Defined.

(** The sample event, first with a leading-pt cut of 60, above the pt of
    both taus, then with a mass threshold of 1000, above the mass of the
    three jet pairs; with the sample configuration itself the three jets
    are emitted. *)
Lemma cuts_failing_everywhere_witness :
  produce sampleConfig [jetC; jetA; jetB] [tau50; tau30] <> [] /\
  produce (mkConfig (QcZ 60) (QcZ 500) (Qcfrac 1 2))
    [jetC; jetA; jetB] [tau50; tau30] = [] /\
  produce (mkConfig (QcZ 45) (QcZ 1000) (Qcfrac 1 2))
    [jetC; jetA; jetB] [tau50; tau30] = [].
Proof.
  split; [destruct sample_scenario as [_ ->]; discriminate|]. split.
  - apply (proj1 (cuts_failing_everywhere_give_empty (K := toyKinematics)
                    (mkConfig (QcZ 60) (QcZ 500) (Qcfrac 1 2))
                    [jetC; jetA; jetB] [tau50; tau30])).
    intros t [<-|[<-|[]]]; qc_order.
  - apply (proj2 (cuts_failing_everywhere_give_empty (K := toyKinematics)
                    (mkConfig (QcZ 45) (QcZ 1000) (Qcfrac 1 2))
                    [jetC; jetA; jetB] [tau50; tau30])).
    intros a b j1 j2 Hlt Ha Hb.
    destruct b as [|[|[|b]]];
      [lia| | |simpl in Hb; destruct b; discriminate Hb];
      destruct a as [|[|[|a]]]; try lia; simpl in Ha, Hb;
      injection Ha as <-; injection Hb as <-; qc_order.
Defined.

Lemma toyMass_sym (a b : Particle) : toyMass a b = toyMass b a.
Proof.
  destruct a as [ia pa ea fa], b as [ib pb eb fb]. unfold toyMass; simpl.
  destruct ia as [|[|[|[|ia]]]], ib as [|[|[|[|ib]]]]; reflexivity.
Defined.

(** The sample scenario with the jets in two different orders; the toy
    invariant mass is symmetric. *)
Lemma jet_order_witness :
  (forall a b : LorentzVector, sumM a b = sumM b a) /\
  Permutation [jetC; jetA; jetB] [jetA; jetC; jetB] /\
  forall jet,
    In jet (produce sampleConfig [jetC; jetA; jetB] [tau50; tau30]) <->
    In jet (produce sampleConfig [jetA; jetC; jetB] [tau50; tau30]).
Proof.
  split; [exact toyMass_sym|]. split; [apply perm_swap|].
  exact (jet_order_does_not_change_retained_set (K := toyKinematics) sampleConfig
           [jetC; jetA; jetB] [jetA; jetC; jetB] [tau50; tau30]
           toyMass_sym (perm_swap _ _ _)).
Defined.

End DiJetFurtherExamples.
